(** * ChordLab: the music-theory engine of [index.tsx]

    A shallow embedding of the generative engine (pitch classes, scale
    patterns, chord-quality classifier, diatonic harmoniser with its style
    rules, wildcard chords, guitar voicings) and of the progression state
    handlers of the [App] component, together with the properties of the
    specification that are stated about them.

    [index.tsx] holds several revisions of the application one after the
    other.  The one embedded here is the revision whose [generateKeyChords]
    takes a style and which has the inversion shapes: the engine between
    [ALL_NOTES] and the end of [generateKeyChords] (lines 906-1299) and the
    handlers [addChord] and [changeVoicing] of its [App] (lines 1520-1558).
    Of the same revision, what the views compute is embedded as well: the
    markers of [Fretboard] and the cells of [TheorySpectrum] (lines
    1369-1465), the notes [playSound] hands to the strummer, the labels of
    [getTransitionInfo] (lines 1528-1572) and the remove button of the
    timeline (line 1798).  Styling, audio and the network call of the
    analysis panel are left out.

    Conventions of the embedding:
    - JavaScript numbers that are integers are [Z]; [%] is the truncating
      remainder [Z.rem]; [Math.min] of no arguments is [Infinity].  Sums in
      [Z] are the runtime's sums as long as they stay below [2^53] in size,
      and a remainder is the runtime's as long as the divisor is not zero;
      the statements about arithmetic on frets and indices bound their
      inputs accordingly.
    - JavaScript strings are [string]; the value [undefined], which only
      arises from an array read off the end, is carried as the string
      ["undefined"] (what a template literal prints for it, and like
      [undefined] it is not an element of [ALL_NOTES]).
    - An object literal used as a dictionary is a [gmap string _] holding
      its own keys; a failed lookup is [None] ([undefined] in the source).
      The names every object inherits ([constructor], [toString], ...) are
      no quality tags, and the statements about template lookup range over
      the tags the generator passes.
    - A thrown runtime error is the left injection of a sum. *)

From Stdlib Require Import ZArith Lia Ascii String Sorted.
From stdpp Require Import base option list strings gmap pretty.

Local Open Scope string_scope.
Local Open Scope Z_scope.

(** ** Pitch classes *)

Definition ALL_NOTES : list string :=
  ["C"; "C#"; "D"; "D#"; "E"; "F"; "F#"; "G"; "G#"; "A"; "A#"; "B"].

(** The JavaScript value [undefined] as it appears among note names. *)
Definition undefined : string := "undefined".

(** [arr.indexOf(x)]: position of the first occurrence, [-1] when absent. *)
Fixpoint indexOf_from (k : Z) (x : string) (arr : list string) : Z :=
  match arr with
  | [] => -1
  | y :: rest => if String.eqb y x then k else indexOf_from (k + 1) x rest
  end.

Definition indexOf (arr : list string) (x : string) : Z := indexOf_from 0 x arr.

(** [arr[k]] for an array of strings: [undefined] off either end. *)
Definition at_index (arr : list string) (k : Z) : string :=
  if k <? 0 then undefined else default undefined (arr !! Z.to_nat k).

(** [arr[k]] for an array of numbers, where only in-range reads matter. *)
Definition num_at (arr : list Z) (k : nat) : option Z := arr !! k.

(** ** Scale catalogue *)

Definition SCALE_PATTERNS : gmap string (list Z) :=
  list_to_map
    [ ("Major",                [0; 2; 4; 5; 7; 9; 11]);
      ("Natural Minor",        [0; 2; 3; 5; 7; 8; 10]);
      ("Melodic Minor (Jazz)", [0; 2; 3; 5; 7; 9; 11]);
      ("Harmonic Minor",       [0; 2; 3; 5; 7; 8; 11]);
      ("Dorian",               [0; 2; 3; 5; 7; 9; 10]);
      ("Mixolydian",           [0; 2; 4; 5; 7; 9; 10]);
      ("Locrian",              [0; 1; 3; 5; 6; 8; 10]);
      ("Phrygian",             [0; 1; 3; 5; 7; 8; 10]);
      ("Lydian",               [0; 2; 4; 6; 7; 9; 11]) ].

Definition ROMAN_NUMERALS : list string :=
  ["i"; "ii"; "iii"; "iv"; "v"; "vi"; "vii"].

(** ** Shape templates: fret offsets from the barre, [-1] is a muted string *)

Record Shape := { eShape : list Z; aShape : list Z }.

Definition CHORD_SHAPES : gmap string Shape :=
  list_to_map
    [ ("",      {| eShape := [0; 2; 2; 1; 0; 0];    aShape := [-1; 0; 2; 2; 2; 0] |});
      ("m",     {| eShape := [0; 2; 2; 0; 0; 0];    aShape := [-1; 0; 2; 2; 1; 0] |});
      ("dim",   {| eShape := [0; 1; 2; 0; -1; -1];  aShape := [-1; 0; 1; 2; 1; -1] |});
      ("sus4",  {| eShape := [0; 2; 2; 2; 0; 0];    aShape := [-1; 0; 2; 2; 3; 0] |});
      ("sus2",  {| eShape := [0; 2; 4; 4; 0; 0];    aShape := [-1; 0; 2; 2; 0; 0] |});
      ("add9",  {| eShape := [0; 2; 4; 1; 0; 0];    aShape := [-1; 0; 2; 4; 2; 0] |});
      ("6",     {| eShape := [0; 2; 2; 1; 2; 0];    aShape := [-1; 0; 2; 2; 2; 2] |});
      ("maj7",  {| eShape := [0; 2; 1; 1; 0; 0];    aShape := [-1; 0; 2; 1; 2; 0] |});
      ("m7",    {| eShape := [0; 2; 0; 0; 0; 0];    aShape := [-1; 0; 2; 0; 1; 0] |});
      ("7",     {| eShape := [0; 2; 0; 1; 0; 0];    aShape := [-1; 0; 2; 0; 2; 0] |});
      ("7sus4", {| eShape := [0; 2; 0; 2; 0; 0];    aShape := [-1; 0; 2; 0; 3; 0] |});
      ("m7b5",  {| eShape := [0; -1; 0; 0; -1; -1]; aShape := [-1; 0; 1; 0; 1; -1] |});
      ("dim7",  {| eShape := [0; 1; 0; 0; -1; -1];  aShape := [-1; 0; 1; 2; 1; -1] |}) ].

(** Inversion shapes: offsets relative to the fret of the bass note. *)
Definition INVERSION_SHAPES : gmap string (list Z) :=
  list_to_map
    [ ("Maj_3_E", [0; -1; -2; 0; 1; -1]);
      ("Maj_3_A", [-1; 0; -2; -2; -2; 1]);
      ("Min_3_E", [0; -1; -1; 1; 2; -1]);
      ("Min_3_A", [-1; 0; -1; -1; -2; -1]);
      ("Maj_5_E", [0; 0; 2; 2; 2; 0]) ].

(** ** Tuning and fret decoding *)

Record NoteInfo := { note : string; octave : Z }.

Definition GUITAR_TUNING : list NoteInfo :=
  [ {| note := "E"; octave := 2 |};
    {| note := "A"; octave := 2 |};
    {| note := "D"; octave := 3 |};
    {| note := "G"; octave := 3 |};
    {| note := "B"; octave := 3 |};
    {| note := "E"; octave := 4 |} ].

(** [getNoteAtFret]: [None] is the source's [null] for a muted string.  The
    string index always comes from walking a six-entry fret array; an index
    with no tuning entry (where the source would throw) is [None] as well. *)
Definition getNoteAtFret (stringIdx : nat) (fret : Z) : option NoteInfo :=
  if fret =? -1 then None
  else
    openNote ← GUITAR_TUNING !! stringIdx;
    let openNoteIdx := indexOf ALL_NOTES (note openNote) in
    let totalSemis := openNoteIdx + fret in
    let noteName := at_index ALL_NOTES (Z.rem totalSemis 12) in
    let octaveBoost := totalSemis / 12 in
    Some {| note := noteName; octave := octave openNote + octaveBoost |}.

(** ** Shifting a shape along the neck *)

(** [shape[0]] as the comparisons of [createVoicingFromShape] see it: the
    first offset, or nothing for an empty shape (no entry is mapped then). *)
Definition shape0 (shape : list Z) : option Z := num_at shape 0.

Definition createVoicingFromShape (shape : list Z) (rootFret : Z) : list Z :=
  map (fun f =>
         if f =? -1 then -1
         else
           let finalFret := f + rootFret in
           match shape0 shape with
           | Some s0 =>
               if (finalFret >? 12) && negb (s0 =? -1) && (s0 + rootFret >? 12)
               then finalFret - 12
               else finalFret
           | None => finalFret
           end)
      shape.

(** [createInversionVoicing]: [None] is the source's [null]. *)
Definition createInversionVoicing (shape : list Z) (bassFret : Z) : option (list Z) :=
  let frets := map (fun f => if f =? -1 then -1 else f + bassFret) shape in
  if existsb (fun f => (f <? 0) && negb (f =? -1)) frets then None else Some frets.

(** ** Chord-quality classifier *)

Definition getQualityFromIntervals (third fifth : Z) (seventh : option Z) : string :=
  let sevenths :=
    match seventh with
    | Some seventh =>
        if (third =? 4) && (fifth =? 7) && (seventh =? 11) then Some "maj7"
        else if (third =? 4) && (fifth =? 7) && (seventh =? 10) then Some "7"
        else if (third =? 3) && (fifth =? 7) && (seventh =? 10) then Some "m7"
        else if (third =? 3) && (fifth =? 7) && (seventh =? 11) then Some "mMaj7"
        else if (third =? 3) && (fifth =? 6) && (seventh =? 10) then Some "m7b5"
        else if (third =? 3) && (fifth =? 6) && (seventh =? 9) then Some "dim7"
        else None
    | None => None
    end in
  match sevenths with
  | Some q => q
  | None =>
      (* Fallback to triads *)
      if (third =? 4) && (fifth =? 7) then ""
      else if (third =? 3) && (fifth =? 7) then "m"
      else if (third =? 3) && (fifth =? 6) then "dim"
      else ""
  end.

(** ** Runtime errors *)

(** The only error the engine can raise is the [TypeError] of the runtime,
    thrown when a property is read or a method is called on [undefined]. *)
Inductive exn := TypeError.

Inductive Result (A : Type) :=
  | Ok (a : A)
  | Throw (e : exn).
Arguments Ok {A} a.
Arguments Throw {A} e.

#[global] Instance Result_ret : MRet Result := fun _ a => Ok a.
#[global] Instance Result_bind : MBind Result := fun _ _ f r =>
  match r with Ok a => f a | Throw e => Throw e end.

(** [o.prop] or [o.method(...)] on a dictionary read [o]. *)
Definition deref {A} (o : option A) : Result A :=
  match o with Some a => Ok a | None => Throw TypeError end.

(** ** Strings and numbers of the runtime *)

Definition upper_ascii (c : ascii) : ascii :=
  let n := nat_of_ascii c in
  if ((97 <=? n) && (n <=? 122))%nat then ascii_of_nat (n - 32) else c.

(** [s.toUpperCase()] on the letters the numerals are made of. *)
Fixpoint toUpperCase (s : string) : string :=
  match s with
  | EmptyString => EmptyString
  | String c rest => String (upper_ascii c) (toUpperCase rest)
  end.

(** [s.includes(t)] *)
Definition includes (s t : string) : bool := bool_decide (is_Some (String.index 0 t s)).

(** [s.replace(t, u)] with a string pattern: the first occurrence only. *)
Definition replace (s t u : string) : string :=
  match String.index 0 t s with
  | Some k =>
      String.substring 0 k s +:+ u
        +:+ String.substring (k + String.length t) (String.length s - k - String.length t) s
  | None => s
  end.

(** [s.startsWith(t)] *)
Definition startsWith (s t : string) : bool := String.prefix t s.

(** A number that may be [Infinity] ([Math.min()] of nothing). *)
Inductive num := Fin (z : Z) | Infinity.

Definition num_min (a b : num) : num :=
  match a, b with
  | Fin x, Fin y => Fin (Z.min x y)
  | Fin x, Infinity => Fin x
  | Infinity, b => b
  end.

Definition Math_min (xs : list Z) : num := foldr (fun x acc => num_min (Fin x) acc) Infinity xs.

(** [x || d] on numbers: [0] is the falsy one. *)
Definition or_num (x : num) (d : Z) : num :=
  match x with Fin 0 => Fin d | _ => x end.

Definition or_Z (x d : Z) : Z := if x =? 0 then d else x.

(** ** Chords and voicings *)

Record Voicing := {
  vname : string;        (* [name] *)
  frets : list Z;        (* 6 strings, -1 for mute, 0 for open *)
  baseFret : num         (* for rendering positioning *)
}.

Inductive ChordFunction := Home | Adventure | Tension | Stranger | Spice.
Inductive Category := Team | Variation | Wildcard.

Record Chord := {
  chord_id : string;     (* [id] *)
  root : string;
  quality : string;
  name : string;
  roman : string;
  function : ChordFunction;
  notes : list string;
  voicings : list Voicing;
  activeVoicingIdx : Z;
  scaleDegree : Z;
  isDiatonic : bool;
  category : Category
}.

#[global] Instance ChordFunction_eq_dec : EqDecision ChordFunction.
Proof. solve_decision. Defined.
#[global] Instance Category_eq_dec : EqDecision Category.
Proof. solve_decision. Defined.
#[global] Instance num_eq_dec : EqDecision num.
Proof. solve_decision. Defined.
#[global] Instance Voicing_eq_dec : EqDecision Voicing.
Proof. solve_decision. Defined.
#[global] Instance Chord_eq_dec : EqDecision Chord.
Proof. solve_decision. Defined.

(** [Math.min(...frets.filter(fr => fr !== -1))] *)
Definition minFret (fs : list Z) : num := Math_min (filter (fun fr => fr ≠ -1) fs).

(** ** The harmoniser *)

(** The fret of a note on a string whose open pitch has index [stringIdx]. *)
Definition fretOn (stringIdx : Z) (n : string) : Z :=
  Z.rem (indexOf ALL_NOTES n - stringIdx + 12) 12.

(** The shape key [buildChord] settles on for quality [q]. *)
Definition shapeKeyOf (q : string) : string :=
  if bool_decide (is_Some (CHORD_SHAPES !! q)) then q
  else if String.eqb q "mMaj7" then "m7"
  else if startsWith q "m" then "m"
  else if startsWith q "dim" then "dim"
  else "".

Section Degree.
(** What the closure [buildChord] captures from the enclosing iteration:
    the degree index and the third and fifth of the diatonic chord. *)
Variables (i : nat) (thirdNote fifthNote : string).

Definition inversionVoicing (shapeName : string) (bassNote : string) (stringIdx : Z)
           (label : string) : Result (list Voicing) :=
  shape ← deref (INVERSION_SHAPES !! shapeName);
  match createInversionVoicing shape (fretOn stringIdx bassNote) with
  | Some invFrets =>
      mret [ {| vname := "/" +:+ bassNote +:+ label;
                frets := invFrets;
                baseFret := or_num (minFret invFrets) 1 |} ]
  | None => mret []
  end.

Definition buildChord (q n r : string) (f : ChordFunction) (cat : Category)
           (customId : string) : Result Chord :=
  let shapeKey := shapeKeyOf q in
  shapeTemplate ← deref (CHORD_SHAPES !! shapeKey ∪ CHORD_SHAPES !! "");
  (* E-shape *)
  let eStringIdx := indexOf ALL_NOTES "E" in
  let eShapeRootFret := fretOn eStringIdx n in
  let eFrets := createVoicingFromShape (eShape shapeTemplate) eShapeRootFret in
  let isEBarre := existsb (fun fr => fr >? 0) eFrets && (eShapeRootFret >? 0) in
  let eVoicing :=
    {| vname := if negb isEBarre then "Open / Bottom"
                else "Root on E (Fret " +:+ pretty (or_Z eShapeRootFret 12) +:+ ")";
       frets := eFrets;
       baseFret := or_num (minFret eFrets) 1 |} in
  (* A-shape *)
  let aStringIdx := indexOf ALL_NOTES "A" in
  let aShapeRootFret := fretOn aStringIdx n in
  let aFrets := createVoicingFromShape (aShape shapeTemplate) aShapeRootFret in
  let isABarre := existsb (fun fr => fr >? 0) aFrets && (aShapeRootFret >? 0) in
  let aVoicing :=
    {| vname := if negb isABarre then "Open A-Style"
                else "Root on A (Fret " +:+ pretty (or_Z aShapeRootFret 12) +:+ ")";
       frets := aFrets;
       baseFret := or_num (minFret aFrets) 1 |} in
  (* First inversion (bass = 3rd) *)
  firstInv ←
    (if String.eqb q "" || String.eqb q "m" then
       let isMinor := String.eqb q "m" in
       invE ← inversionVoicing (if isMinor then "Min_3_E" else "Maj_3_E")
                               thirdNote eStringIdx " (Bass on E)";
       invA ← inversionVoicing (if isMinor then "Min_3_A" else "Maj_3_A")
                               thirdNote aStringIdx " (Bass on A)";
       mret (invE ++ invA)%list
     else mret []);
  (* Second inversion (bass = 5th) *)
  secondInv ←
    (if String.eqb q "" then
       inversionVoicing "Maj_5_E" fifthNote eStringIdx " (Bass on E)"
     else mret []);
  (* Notes for playback *)
  let cNotes := [n; thirdNote; fifthNote] in
  mret {| chord_id := n +:+ q +:+ "-" +:+ pretty (Z.of_nat i) +:+ "-" +:+ customId;
          root := n;
          quality := q;
          name := n +:+ q;
          roman := r;
          function := f;
          notes := cNotes;
          voicings := ([eVoicing; aVoicing] ++ firstInv ++ secondInv)%list;
          activeVoicingIdx := 0;
          scaleDegree := Z.of_nat i + 1;
          isDiatonic := true;
          category := cat |}.
End Degree.

(** The interval from the chord root up to a note, in semitones. *)
Definition intervalFrom (chordRootVal noteVal : Z) : Z :=
  Z.rem (noteVal - chordRootVal + 12) 12.

(** The body of [scaleNotes.forEach((note, i) => ...)]: the chords one scale
    degree pushes onto [allChords], in push order. *)
Definition degreeChords (scaleType style : string) (scaleNotes : list string)
           (i : nat) (note : string) : Result (list Chord) :=
  let chordRootVal := indexOf ALL_NOTES note in
  let thirdNote := at_index scaleNotes (Z.rem (Z.of_nat i + 2) 7) in
  let fifthNote := at_index scaleNotes (Z.rem (Z.of_nat i + 4) 7) in
  let seventhNote := at_index scaleNotes (Z.rem (Z.of_nat i + 6) 7) in
  let useSevenths := String.eqb style "Jazz" || String.eqb style "Blues" in
  (* Blues override *)
  let isBluesDominant :=
    String.eqb style "Blues" && ((i =? 0) || (i =? 3) || (i =? 4))%nat in
  let thirdNote :=
    if isBluesDominant then at_index ALL_NOTES (Z.rem (chordRootVal + 4) 12) else thirdNote in
  let seventhNote :=
    if isBluesDominant then at_index ALL_NOTES (Z.rem (chordRootVal + 10) 12) else seventhNote in
  let useSevenths := if isBluesDominant then true else useSevenths in
  let thirdVal := indexOf ALL_NOTES thirdNote in
  let fifthVal := indexOf ALL_NOTES fifthNote in
  let seventhVal := indexOf ALL_NOTES seventhNote in
  let thirdInterval := intervalFrom chordRootVal thirdVal in
  let fifthInterval := intervalFrom chordRootVal fifthVal in
  let seventhInterval := intervalFrom chordRootVal seventhVal in
  let quality :=
    getQualityFromIntervals thirdInterval fifthInterval
      (if useSevenths then Some seventhInterval else None) in
  (* Determine function *)
  let func := Adventure in
  let func := if (i =? 0)%nat then Home else func in
  let func := if (i =? 4)%nat then Tension else func in
  let func := if (i =? 6)%nat then Tension else func in
  let func := if ((i =? 2) || (i =? 5))%nat then Home else func in
  let func := if ((i =? 1) || (i =? 3))%nat then Adventure else func in
  let func :=
    if String.eqb style "Blues" || String.eqb scaleType "Mixolydian" then
      let func := if (i =? 0)%nat then Home else func in
      let func := if (i =? 3)%nat then Adventure else func in
      if (i =? 4)%nat then Tension else func
    else func in
  (* Roman numeral: [ROMAN_NUMERALS[i]] is a string for the seven degrees *)
  let numeral := ROMAN_NUMERALS !! i in
  roman ← (if thirdInterval =? 4
           then r ← deref numeral; mret (toUpperCase r)
           else mret (default undefined numeral));
  let roman := if includes quality "7" then roman +:+ "7" else roman in
  let roman := if String.eqb quality "maj7" then replace roman "7" "Maj7" else roman in
  let roman := if String.eqb quality "m7b5" then roman +:+ "ø" else roman in
  let roman := if String.eqb quality "dim7" then roman +:+ "°7" else roman in
  let build := buildChord i thirdNote fifthNote in
  team ← build quality note roman func Team "";
  (* Variations *)
  sus ←
    (if String.eqb quality "" || String.eqb quality "7" then
       sus4 ← build "sus4" note (roman +:+ "sus4") Spice Variation "sus4";
       sus2 ← build "sus2" note (roman +:+ "sus2") Spice Variation "sus2";
       add9 ← (if String.eqb style "Pop"
               then c ← build "add9" note (roman +:+ "add9") Spice Variation "add9"; mret [c]
               else mret []);
       six ← (if String.eqb quality ""
              then c ← build "6" note (roman +:+ "6") Spice Variation "6"; mret [c]
              else mret []);
       mret ([sus4; sus2] ++ add9 ++ six)%list
     else mret []);
  dom ←
    (if String.eqb quality "7"
     then c ← build "7sus4" note (roman +:+ "7sus") Tension Variation "7sus4"; mret [c]
     else mret []);
  mret ([team] ++ sus ++ dom)%list.

(** [addWildcard]: the chord it pushes. *)
Definition addWildcard (rootIdx : Z) (degreeOffset : Z) (quality roman label : string)
  : Result Chord :=
  let wIdx := Z.rem (rootIdx + degreeOffset) 12 in
  let wNote := at_index ALL_NOTES wIdx in
  let shapeKey := quality in
  template ← deref (CHORD_SHAPES !! shapeKey ∪ CHORD_SHAPES !! "");
  let eStringIdx := indexOf ALL_NOTES "E" in
  let wRootFret := Z.rem (wIdx - eStringIdx + 12) 12 in
  let wFrets := createVoicingFromShape (eShape template) wRootFret in
  mret {| chord_id := "wild-" +:+ wNote +:+ quality;
          root := wNote;
          quality := quality;
          name := wNote +:+ quality;
          roman := roman;
          function := Stranger;
          notes := [wNote; "?"; "?"];
          voicings := [ {| vname := label; frets := wFrets; baseFret := minFret wFrets |} ];
          activeVoicingIdx := 0;
          scaleDegree := 0;
          isDiatonic := false;
          category := Wildcard |}.

(** The wildcard section of [generateKeyChords]. *)
Definition wildcards (rootIdx : Z) (scaleType : string) : Result (list Chord) :=
  if String.eqb scaleType "Major" || String.eqb scaleType "Mixolydian" then
    mapM (fun w => w)
      [ addWildcard rootIdx 10 "" "bVII" "Mixolydian Borrow";
        addWildcard rootIdx 3 "" "bIII" "Chromatic Mediant";
        addWildcard rootIdx 5 "m" "iv" "Minor Plagal";
        addWildcard rootIdx 8 "" "bVI" "Epic Lift" ]
  else (* minor contexts *)
    mapM (fun w => w)
      [ addWildcard rootIdx 7 "" "V" "Major V (Harmonic)";
        addWildcard rootIdx 5 "" "IV" "Dorian IV";
        addWildcard rootIdx 1 "" "bII" "Neapolitan" ].

(** The scale tones: [pattern.map(interval => ALL_NOTES[(rootIdx + interval) % 12])]. *)
Definition scaleNotesOf (rootIdx : Z) (pattern : list Z) : list string :=
  map (fun interval => at_index ALL_NOTES (Z.rem (rootIdx + interval) 12)) pattern.

(** The scale of a key, as both [generateKeyChords] and the [scaleNotes] memo
    of [App] compute it; the specification calls it [buildScale]. *)
Definition buildScale (root scaleType : string) : Result (list string) :=
  let rootIdx := indexOf ALL_NOTES root in
  pattern ← deref (SCALE_PATTERNS !! scaleType);
  mret (scaleNotesOf rootIdx pattern).

(** Generates the chords of a key and style; the specification calls it
    [generateChordCatalog]. *)
Definition generateKeyChords (root scaleType style : string) : Result (list Chord) :=
  let rootIdx := indexOf ALL_NOTES root in
  pattern ← deref (SCALE_PATTERNS !! scaleType);
  let scaleNotes := scaleNotesOf rootIdx pattern in
  diatonic ← mapM (fun '(i, note) => degreeChords scaleType style scaleNotes i note)
                  (imap pair scaleNotes);
  wild ← wildcards rootIdx scaleType;
  mret (concat diatonic ++ wild)%list.

(** ** Decoding a voicing *)

(** The interval from a chord's root up to its [k]-th note. *)
Definition noteInterval (c : Chord) (k : Z) : Z :=
  intervalFrom (indexOf ALL_NOTES (root c)) (indexOf ALL_NOTES (at_index (notes c) k)).

(** A string of a voicing is within the chord when it is muted or the
    pitch class it sounds in standard tuning is one of [c.notes]. *)
Definition stringWithinNotes (c : Chord) (stringIdx : nat) (fret : Z) : bool :=
  (fret =? -1)
  || match getNoteAtFret stringIdx fret with
     | Some played => bool_decide (note played ∈ notes c)
     | None => false
     end.

Definition voicingsWithinNotes (c : Chord) : bool :=
  forallb (fun v => forallb (fun '(stringIdx, fret) => stringWithinNotes c stringIdx fret)
                            (imap pair (frets v)))
          (voicings c).

(** ** The progression state of [App] *)

(** Chord objects live in a store and are held by reference: the
    [progression] array, [selectedChord] and the catalogue all point at
    objects, and two references to one object see each other's writes. *)
Abbreviation loc := nat (only parsing).

Record AppState := {
  heap : gmap loc Chord;
  progression : list loc;
  selectedChord : option loc
}.

(** [addChord(chordTemplate)]: a spread copy of the template with a fresh
    [id] is appended and selected.  [now] is [Date.now()]; every reference the
    program holds points into the store, so the lookup succeeds. *)
Definition addChord (chordTemplate : loc) (now : Z) (st : AppState) : AppState :=
  match heap st !! chordTemplate with
  | Some t =>
      let newChord := fresh (dom (heap st)) in
      let obj :=
        {| chord_id := chord_id t +:+ "-" +:+ pretty now;
           root := root t; quality := quality t; name := name t; roman := roman t;
           function := function t; notes := notes t; voicings := voicings t;
           activeVoicingIdx := activeVoicingIdx t; scaleDegree := scaleDegree t;
           isDiatonic := isDiatonic t; category := category t |} in
      {| heap := <[newChord := obj]> (heap st);
         progression := (progression st ++ [newChord])%list;
         selectedChord := Some newChord |}
  | None => st
  end.

(** The assignment [o.activeVoicingIdx = k] on a chord object. *)
Definition setIdx (k : Z) (c : Chord) : Chord :=
  {| chord_id := chord_id c; root := root c; quality := quality c; name := name c;
     roman := roman c; function := function c; notes := notes c;
     voicings := voicings c; activeVoicingIdx := k; scaleDegree := scaleDegree c;
     isDiatonic := isDiatonic c; category := category c |}.

(** [progression.findIndex(c => c.id === selectedChord.id)], with the
    reference found there. *)
Definition findById (h : gmap loc Chord) (prog : list loc) (sel : Chord)
  : option (nat * loc) :=
  list_find (fun l => chord_id <$> h !! l = Some (chord_id sel)) prog.

(** [changeVoicing(delta)].  The new array [newProg] holds the same
    references as [progression]; the write goes to the object itself.  (The
    sound played afterwards is outside the engine; a chord always has
    voicings, so [len] is positive.) *)
Definition changeVoicing (delta : Z) (st : AppState) : AppState :=
  match selectedChord st with
  | None => st
  | Some sel =>
      match heap st !! sel with
      | None => st
      | Some selObj =>
          match findById (heap st) (progression st) selObj with
          | None => st
          | Some (idx, l) =>
              let newProg := progression st in
              match heap st !! l with
              | None => st
              | Some c =>
                  let currentIdx := activeVoicingIdx c in
                  let len := Z.of_nat (length (voicings c)) in
                  let newVoicingIdx := Z.rem (currentIdx + delta + len) len in
                  {| heap := <[l := setIdx newVoicingIdx c]> (heap st);
                     progression := newProg;
                     selectedChord := Some l |}
              end
          end
      end
  end.

(** ** Transitions along the progression *)

Inductive TransitionType := resolution | tension | adventure | neutral.

(** The [icon] of a transition is never set by [getTransitionInfo]. *)
Record Transition := { type : TransitionType; label : string }.

Definition getTransitionInfo (prev curr : Chord) : Transition :=
  if bool_decide (function prev = Tension) && bool_decide (function curr = Home)
  then {| type := resolution; label := "Resolve" |}
  else if bool_decide (function prev = Home) && bool_decide (function curr = Tension)
  then {| type := tension; label := "Build" |}
  else if bool_decide (function prev = Adventure) && bool_decide (function curr = Tension)
  then {| type := tension; label := "Push" |}
  else if bool_decide (function curr = Stranger) || bool_decide (category curr = Wildcard)
  then {| type := adventure; label := "Surprise" |}
  else {| type := neutral; label := "Flow" |}.

(** ** What [playSound] hands to the strummer *)

(** The sort key of [playSound]: [octave * 12 + ALL_NOTES.indexOf(note)]. *)
Definition pitchOf (n : NoteInfo) : Z := octave n * 12 + indexOf ALL_NOTES (note n).

(** [notesToPlay.sort((a, b) => pitch(a) - pitch(b))].  The sort of the
    runtime is stable, which fixes its result: ascending pitch, notes of
    equal pitch in their original order. *)
Fixpoint insertByPitch (x : NoteInfo) (sorted : list NoteInfo) : list NoteInfo :=
  match sorted with
  | [] => [x]
  | y :: rest =>
      if pitchOf x <=? pitchOf y then x :: y :: rest else y :: insertByPitch x rest
  end.

Definition sortByPitch (l : list NoteInfo) : list NoteInfo := foldr insertByPitch [] l.

(** [chord.voicings[chord.activeVoicingIdx]] *)
Definition activeVoicing (chord : Chord) : option Voicing :=
  if activeVoicingIdx chord <? 0 then None
  else voicings chord !! Z.to_nat (activeVoicingIdx chord).

(** The notes pushed string by string, muted strings skipped. *)
Definition pushedNotes (voicing : Voicing) : list NoteInfo :=
  omap (fun played => played)
       (imap (fun stringIdx fret => if fret =? -1 then None else getNoteAtFret stringIdx fret)
             (frets voicing)).

(** [playSound(chord)]: the argument of [strumChord], or [None] when it
    returns early for want of a voicing.  (The strumming itself is audio.) *)
Definition playSound (chord : Chord) : option (list NoteInfo) :=
  voicing ← activeVoicing chord;
  Some (sortByPitch (pushedNotes voicing)).

(** ** What the fretboard draws *)

(** One string of the diagram: an X over a muted string, nothing for a
    fretted note outside the window, or a dot with the note's name,
    highlighted when it is the chord's root. *)
Inductive Marker :=
  | MarkMuted
  | MarkHidden
  | MarkDot (isRoot : bool) (noteName : string).

Definition fretsToShow : Z := 5.

(** [voicing.baseFret || 1] *)
Definition startFretOf (voicing : Voicing) : num := or_num (baseFret voicing) 1.

(** [relativeFret >= 0 && relativeFret < fretsToShow] *)
Definition isVisible (startFret : num) (fret : Z) : bool :=
  match startFret with
  | Fin s => (0 <=? fret - s) && (fret - s <? fretsToShow)
  | Infinity => false
  end.

(** The body of [renderNotes]; pixel positions are left out. *)
Definition renderNote (chord : Chord) (voicing : Voicing) (stringIdx : nat) (fret : Z) : Marker :=
  if fret =? -1 then MarkMuted
  else if negb (isVisible (startFretOf voicing) fret) && negb (fret =? 0) then MarkHidden
  else
    match getNoteAtFret stringIdx fret with
    | Some noteInfo => MarkDot (String.eqb (note noteInfo) (root chord)) (note noteInfo)
    | None => MarkDot (String.eqb undefined (root chord)) undefined
    end.

Inductive FretboardView :=
  | SelectPrompt                         (* no chord selected *)
  | VoicingMissing                       (* "Voicing data missing" *)
  | Board (startFret : num) (markers : list Marker).

Definition Fretboard (chord : option Chord) : FretboardView :=
  match chord with
  | None => SelectPrompt
  | Some chord =>
      match activeVoicing chord with
      | None => VoicingMissing
      | Some voicing =>
          Board (startFretOf voicing) (imap (renderNote chord voicing) (frets voicing))
      end
  end.

(** ** The interval map *)

Record SpectrumCell := {
  cellNote : string;
  isChordTone : bool;
  isRootCell : bool;
  cellLabel : string
}.

(** [TheorySpectrum]: one cell per scale tone. *)
Definition TheorySpectrum (scaleNotes : list string) (currentChord : option Chord)
  : list SpectrumCell :=
  imap (fun i n =>
          {| cellNote := n;
             isChordTone :=
               match currentChord with
               | Some c => bool_decide (n ∈ notes c)
               | None => false
               end;
             isRootCell :=
               match currentChord with
               | Some c => String.eqb (root c) n
               | None => false
               end;
             cellLabel :=
               if (i =? 0)%nat then "Root"
               else if (i =? 2)%nat then "3rd"
               else if (i =? 4)%nat then "5th"
               else if (i =? 6)%nat then "7th"
               else pretty (Z.of_nat i + 1) |})
       scaleNotes.

(** ** Removing a chord from the progression *)

(** The handler of the remove button: [newP.splice(idx, 1)] on a copy of
    the array; the selection is left as it is. *)
Definition removeChord (idx : nat) (st : AppState) : AppState :=
  {| heap := heap st;
     progression := delete idx (progression st);
     selectedChord := selectedChord st |}.

(** * Vocabulary of the statements *)

(** The tables, predicates and checks the properties below are stated
    with; none of them is part of the program. *)

(** The rows of the table of the specification. *)
Definition seventhRows : list (Z * Z * Z * string) :=
  [ (4, 7, 11, "maj7"); (4, 7, 10, "7"); (3, 7, 10, "m7");
    (3, 7, 11, "mMaj7"); (3, 6, 10, "m7b5"); (3, 6, 9, "dim7") ].

(** The rows without a seventh; the empty tag is the major triad. *)
Definition triadRows : list (Z * Z * string) :=
  [ (4, 7, ""); (3, 7, "m"); (3, 6, "dim") ].

(** The tag of the first row whose intervals are [k], if there is one. *)
Definition lookupRow {K} `{EqDecision K} (k : K) (rows : list (K * string)) : option string :=
  snd <$> (snd <$> list_find (fun row => fst row = k) rows).

(** The classifier read as a table: the seventh rows when a seventh is given
    and its triple is listed, otherwise the triad rows on (third, fifth),
    otherwise the tag of the major triad. *)
Definition classifyTable (third fifth : Z) (seventh : option Z) : string :=
  default ""
    ((seventh ≫= fun s => lookupRow (third, fifth, s) seventhRows)
       ∪ lookupRow (third, fifth) triadRows).

(** Shifting without the fold-down. *)
Definition shiftBy (rootFret : Z) (shape : list Z) : list Z :=
  map (fun f => if f =? -1 then -1 else f + rootFret) shape.

(** A run that returns a value rather than throwing. *)
Definition succeeds {A} (r : Result A) : Prop := ∃ a, r = Ok a.

(** What every chord built for scale degree [i] on [note] has in common. *)
Definition degreeChord (i : nat) (note : string) (c : Chord) : Prop :=
  root c = note ∧ (∃ t f, notes c = [note; t; f]) ∧
  category c ≠ Wildcard ∧ isDiatonic c = true ∧ scaleDegree c = Z.of_nat i + 1 ∧
  (2 ≤ length (voicings c))%nat.

(** The borrowed chords of a context: semitones above the key root,
    quality and numeral.  The major contexts are the ones the wildcard
    section tests for, Major and Mixolydian; every other scale is a minor
    context. *)
Definition isMajorContext (scaleType : string) : bool :=
  String.eqb scaleType "Major" || String.eqb scaleType "Mixolydian".

(** bVII, bIII, iv and bVI in a major context; V, IV and bII in a minor one. *)
Definition borrowed (scaleType : string) : list (Z * string * string) :=
  if isMajorContext scaleType
  then [ (10, "", "bVII"); (3, "", "bIII"); (5, "m", "iv"); (8, "", "bVI") ]
  else [ (7, "", "V"); (5, "", "IV"); (1, "", "bII") ].

(** Chord [c] is the borrowed chord [b] of the key whose root has index
    [rootIdx]: rooted that many semitones above the key root, with that
    quality and numeral, and tagged as a wildcard. *)
Definition isBorrowed (rootIdx : Z) (c : Chord) (b : Z * string * string) : Prop :=
  root c = at_index ALL_NOTES (Z.rem (rootIdx + b.1.1) 12) ∧
  quality c = b.1.2 ∧ roman c = b.2 ∧
  function c = Stranger ∧ category c = Wildcard ∧ isDiatonic c = false ∧
  notes c = [root c; "?"; "?"] ∧ length (voicings c) = 1%nat.

(** The style only matters through its comparisons with the three style
    names, so every style behaves as one of four. *)
Definition styleOf (style : string) : string :=
  if String.eqb style "Pop" then "Pop"
  else if String.eqb style "Jazz" then "Jazz"
  else if String.eqb style "Blues" then "Blues"
  else "".

(** The registered scale names ([Object.keys(SCALE_PATTERNS)], in some order). *)
Definition scaleNames : list string := (map_to_list SCALE_PATTERNS).*1.

(** A check [P] holds of every chord of every catalogue of a style. *)
Definition catalogueCheck (P : string → string → Chord → bool) (style : string) : bool :=
  forallb (fun r =>
     forallb (fun scaleType =>
        match generateKeyChords r scaleType style with
        | Ok cs => forallb (P r scaleType) cs
        | Throw _ => false
        end) scaleNames) ALL_NOTES.

(** The chord's quality is the triad row of its own third and fifth. *)
Definition isTableTriad (c : Chord) : Prop :=
  lookupRow (noteInterval c 1, noteInterval c 2) triadRows = Some (quality c).

(** On a Core chord that is a triad of the table, all voicings stay within
    the notes. *)
Definition coreTriadCheck (_ _ : string) (c : Chord) : bool :=
  if bool_decide (category c = Team) && bool_decide (isTableTriad c)
  then voicingsWithinNotes c
  else true.

(** The degrees (1-indexed) the Blues override applies to. *)
Definition bluesDegrees : list Z := [1; 4; 5].

(** The tones of a Blues chord on a dominant degree: the degree's scale
    tone, the major third above it, and the scale's own fifth. *)
Definition bluesNotes (scale : list string) (c : Chord) : list string :=
  [ root c;
    at_index ALL_NOTES (Z.rem (indexOf ALL_NOTES (root c) + 4) 12);
    at_index scale (Z.rem (scaleDegree c - 1 + 4) 7) ].

(** On a Core chord of a dominant degree: the root is the degree's scale
    tone, the notes are [bluesNotes], the third is major, and with a perfect
    fifth the quality is 7. *)
Definition bluesCheck (r scaleType : string) (c : Chord) : bool :=
  if bool_decide (category c = Team) && bool_decide (scaleDegree c ∈ bluesDegrees)
  then
    match buildScale r scaleType with
    | Ok scale =>
        bool_decide (root c = at_index scale (scaleDegree c - 1))
        && bool_decide (notes c = bluesNotes scale c)
        && bool_decide (noteInterval c 1 = 4)
        && (if noteInterval c 2 =? 7 then bool_decide (quality c = "7") else true)
    | Throw _ => false
    end
  else true.

(** The index [changeVoicing] moves to. *)
Definition nextVoicingIdx (delta : Z) (c : Chord) : Z :=
  let len := Z.of_nat (length (voicings c)) in
  Z.rem (activeVoicingIdx c + delta + len) len.

(** A chord with nothing in it, for the catalogue read below to fall back on. *)
Definition noChord : Chord :=
  {| chord_id := ""; root := ""; quality := ""; name := ""; roman := "";
     function := Home; notes := []; voicings := [];
     activeVoicingIdx := 0; scaleDegree := 0; isDiatonic := false;
     category := Team |}.

(** The tonic chord of C Major in the Pop style, first of its catalogue. *)
Definition tonicTemplate : Chord :=
  match generateKeyChords "C" "Major" "Pop" with
  | Ok (c :: _) => c
  | _ => noChord
  end.

(** A session: the catalogue holds the tonic chord at reference 0 and the
    progression is empty ... *)
Definition session0 : AppState :=
  {| heap := {[ 0%nat := tonicTemplate ]}; progression := []; selectedChord := None |}.

(** ... then the chord is added, which puts its copy at reference 1. *)
Definition session1 : AppState := addChord 0%nat 1700000000000 session0.

(** The active index points at one of the chord's voicings. *)
Definition validIdx (c : Chord) : Prop :=
  0 ≤ activeVoicingIdx c < Z.of_nat (length (voicings c)).

(** Every chord object of the store has a valid active index. *)
Definition wellFormed (st : AppState) : Prop :=
  map_Forall (fun _ c => validIdx c) (heap st).

(** The state in which the chord object at [l] is [c] with active index [k]
    and is the selected one. *)
Definition withIdx (st : AppState) (l : loc) (c : Chord) (k : Z) : AppState :=
  {| heap := <[l := setIdx k c]> (heap st);
     progression := progression st;
     selectedChord := Some l |}.

(** The ids of the progression's chords, in order. *)
Definition progressionIds (st : AppState) : list (option string) :=
  (fun l => chord_id <$> heap st !! l) <$> progression st.

(** Ascending pitch. *)
Definition pitchLe (a b : NoteInfo) : Prop := pitchOf a ≤ pitchOf b.

(** A number that is finite and lies between two bounds. *)
Definition numBetween (lo hi : Z) (n : num) : Prop :=
  match n with
  | Fin b => lo ≤ b ≤ hi
  | Infinity => False
  end.

#[global] Instance numBetween_dec (lo hi : Z) (n : num) : Decision (numBetween lo hi n).
Proof. destruct n; apply _. Defined.

#[global] Instance Marker_eq_dec : EqDecision Marker.
Proof. solve_decision. Defined.

(** A voicing a hand can take: six strings, every fret between muted and
    the 15th, at least one string played, and a window start that is a
    fret of the neck (from the first fret for a diatonic chord, from the nut
    for a wildcard). *)
Definition playableVoicing (c : Chord) (v : Voicing) : Prop :=
  length (frets v) = 6%nat ∧
  Forall (fun f => -1 ≤ f ≤ 15) (frets v) ∧
  Exists (fun f => f ≠ -1) (frets v) ∧
  numBetween (if decide (category c = Wildcard) then 0 else 1) 11 (baseFret v).

(** No played string of any voicing falls outside the diagram. *)
Definition allDrawn (c : Chord) : Prop :=
  Forall (fun v => Forall (fun m => m ≠ MarkHidden) (imap (renderNote c v) (frets v)))
         (voicings c).

(** The labels of the two shape voicings of a chord rooted on [n]. *)
Definition eShapeLabel (n : string) : string :=
  if decide (n = "E") then "Open / Bottom"
  else "Root on E (Fret " +:+ pretty (fretOn 4 n) +:+ ")".

Definition aShapeLabel (n : string) : string :=
  if decide (n = "A") then "Open A-Style"
  else "Root on A (Fret " +:+ pretty (fretOn 9 n) +:+ ")".

(** The name of the lowest note [playSound] strums when voicing [k] of the
    chord is the active one. *)
Definition playedBass (c : Chord) (k : nat) : option string :=
  note <$> (playSound (setIdx (Z.of_nat k) c) ≫= head).

(** The labels an inversion can carry, each with the bass note it names:
    the chord's third on the E or the A string, its fifth on the E string. *)
Definition slashLabels (c : Chord) : list (string * option string) :=
  let third := at_index (notes c) 1 in
  let fifth := at_index (notes c) 2 in
  [ ("/" +:+ third +:+ " (Bass on E)", Some third);
    ("/" +:+ third +:+ " (Bass on A)", Some third);
    ("/" +:+ fifth +:+ " (Bass on E)", Some fifth) ].

(** Harmonic function by scale degree (1-indexed). *)
Definition funcOfDegree (d : Z) : ChordFunction :=
  if decide (d ∈ [1; 3; 6]) then Home
  else if decide (d ∈ [2; 4]) then Adventure
  else Tension.

(** The scale of a key, empty for an unregistered pattern. *)
Definition scaleOf (r scaleType : string) : list string :=
  match buildScale r scaleType with
  | Ok scale => scale
  | Throw _ => []
  end.

(** The stacked thirds on position [i] of a scale (0-indexed), wrapping. *)
Definition triadOf (scale : list string) (i : Z) : list string :=
  [ at_index scale i; at_index scale (Z.rem (i + 2) 7); at_index scale (Z.rem (i + 4) 7) ].

(** Which cells of the interval map light up for the stacked thirds on
    position [i]: the chord tones, and the root. *)
Definition tonesLit (i : Z) : list bool :=
  (fun j => bool_decide (Z.of_nat j ∈ [i; Z.rem (i + 2) 7; Z.rem (i + 4) 7])) <$> seq 0 7.

Definition rootLit (i : Z) : list bool :=
  (fun j => bool_decide (Z.of_nat j = i)) <$> seq 0 7.

(** The marks of the suffix a quality adds to the numeral. *)
Definition suffixOf (q : string) : string :=
  if decide (q = "maj7") then "Maj7"
  else if decide (q = "m7b5") then "7ø"
  else if decide (q = "dim7") then "7°7"
  else if decide (q ∈ ["7"; "m7"; "mMaj7"]) then "7"
  else "".

(** The numeral of a chord's degree, in the case its stored third asks for. *)
Definition numeralOf (c : Chord) : string :=
  let numeral := at_index ROMAN_NUMERALS (scaleDegree c - 1) in
  if decide (noteInterval c 1 = 4) then toUpperCase numeral else numeral.

(** How many voicings a chord of the catalogue comes with. *)
Definition expectedVoicings (c : Chord) : nat :=
  let third := at_index (notes c) 1 in
  if decide (category c = Wildcard) then 1
  else if decide (quality c = "") then (if decide (third ∈ ["E"; "A"]) then 4 else 5)
  else if decide (quality c = "m") then (if decide (third = "A") then 3 else 4)
  else 2.

(** The qualities of the variations that follow a Core chord. *)
Definition variationsOf (style : string) (quality : string) : list string :=
  if decide (quality = "") then
    ["sus4"; "sus2"] ++ (if decide (style = "Pop") then ["add9"] else []) ++ ["6"]
  else if decide (quality = "7") then
    ["sus4"; "sus2"] ++ (if decide (style = "Pop") then ["add9"] else []) ++ ["7sus4"]
  else [].

(** A chord reduced to root, quality, degree and category. *)
Definition outline (c : Chord) : string * string * Z * Category :=
  (root c, quality c, scaleDegree c, category c).

(** A Core chord followed by its variations, in outline. *)
Definition familyOf (style : string) (p : Chord) : list (string * string * Z * Category) :=
  outline p
    :: ((fun q => (root p, q, scaleDegree p, Variation)) <$> variationsOf style (quality p)).

(** The facts checked of every chord of every catalogue. *)
Definition chordFacts (style r scaleType : string) (c : Chord) : Prop :=
  (root c ∈ ALL_NOTES ∧ activeVoicingIdx c = 0 ∧
   Forall (playableVoicing c) (voicings c)) ∧
  allDrawn c ∧
  (Forall (fun v => vname v ∉ ["Root on E (Fret 12)"; "Root on A (Fret 12)"]) (voicings c) ∧
   (category c ≠ Wildcard →
    vname <$> voicings c !! 0%nat = Some (eShapeLabel (root c)) ∧
    vname <$> voicings c !! 1%nat = Some (aShapeLabel (root c)))) ∧
  (playedBass c 0 = Some (root c) ∧
   (category c ≠ Wildcard → playedBass c 1 = Some (root c)) ∧
   Forall (fun kv => (vname kv.2, playedBass c kv.1) ∈ slashLabels c)
          (drop 2 (imap pair (voicings c)))) ∧
  ((category c = Team → function c = funcOfDegree (scaleDegree c)) ∧
   (category c = Variation →
    function c = if decide (quality c = "7sus4") then Tension else Spice) ∧
   (category c = Wildcard ↔ function c = Stranger)) ∧
  (category c ≠ Wildcard →
   style ≠ "Blues" ∨ scaleDegree c ∉ bluesDegrees →
   notes c = triadOf (scaleOf r scaleType) (scaleDegree c - 1) ∧
   isChordTone <$> TheorySpectrum (scaleOf r scaleType) (Some c)
     = tonesLit (scaleDegree c - 1) ∧
   isRootCell <$> TheorySpectrum (scaleOf r scaleType) (Some c)
     = rootLit (scaleDegree c - 1)) ∧
  (category c = Team → style ≠ "Jazz" → style ≠ "Blues" →
   quality c ∈ [""; "m"; "dim"]) ∧
  (category c = Team → roman c = numeralOf c +:+ suffixOf (quality c)) ∧
  length (voicings c) = expectedVoicings c.

#[global] Instance chordFacts_dec style r scaleType c : Decision (chordFacts style r scaleType c).
Proof. unfold chordFacts, allDrawn, playableVoicing. apply _. Defined.

Definition chordFactsCheck (style r scaleType : string) (c : Chord) : bool :=
  bool_decide (chordFacts style r scaleType c).

(** A check [P] holds of every catalogue of a style. *)
Definition catalogueCheckAll (P : string → string → list Chord → bool) (style : string) : bool :=
  forallb (fun r =>
     forallb (fun scaleType =>
        match generateKeyChords r scaleType style with
        | Ok cs => P r scaleType cs
        | Throw _ => false
        end) scaleNames) ALL_NOTES.

(** The facts checked of every catalogue as a whole. *)
Definition catalogueFacts (style r scaleType : string) (cs : list Chord) : Prop :=
  NoDup (chord_id <$> cs) ∧
  root <$> filter (fun c => category c = Team) cs = scaleOf r scaleType ∧
  scaleDegree <$> filter (fun c => category c = Team) cs = [1; 2; 3; 4; 5; 6; 7] ∧
  outline <$> filter (fun c => category c ≠ Wildcard) cs
    = filter (fun c => category c = Team) cs ≫= familyOf style.

#[global] Instance catalogueFacts_dec style r scaleType cs :
  Decision (catalogueFacts style r scaleType cs).
Proof. unfold catalogueFacts. apply _. Defined.

Definition catalogueFactsCheck (style r scaleType : string) (cs : list Chord) : bool :=
  bool_decide (catalogueFacts style r scaleType cs).

(** ** Ranges of the statements *)

(** A step of the voicing buttons on chord [c] whose sums the runtime
    computes exactly: the step is below [2^52] in size and the chord has
    fewer than [2^32] voicings, as every array has. *)
Definition exactStep (delta : Z) (c : Chord) : Prop :=
  Z.abs delta < 2 ^ 52 ∧ Z.of_nat (length (voicings c)) < 2 ^ 32.

(** The quality tags the generator hands to [buildChord]: the results of
    [getQualityFromIntervals] (the empty tag is also its answer to intervals
    it does not know) and the tags of the variations. *)
Definition generatedTags : list string :=
  [ "maj7"; "7"; "m7"; "mMaj7"; "m7b5"; "dim7"; ""; "m"; "dim";
    "sus4"; "sus2"; "add9"; "6"; "7sus4" ].

(** The qualities the wildcard section hands to [addWildcard]. *)
Definition wildcardTags : list string := [""; "m"].

(** A major-family mode: a scale whose third tone is a major third, four
    semitones, above its root. *)
Definition isMajorFamily (scaleType : string) : bool :=
  match SCALE_PATTERNS !! scaleType with
  | Some pattern => bool_decide (pattern !! 2%nat = Some 4)
  | None => false
  end.

(** * Properties *)

(** ** Pitch-class arithmetic *)

Lemma at_index_indexOf (n : string) :
  n ∈ ALL_NOTES →
  0 ≤ indexOf ALL_NOTES n < 12 ∧ at_index ALL_NOTES (indexOf ALL_NOTES n) = n.
Proof.
  unfold ALL_NOTES. intros H.
  repeat (apply elem_of_cons in H as [-> | H]; [vm_compute; intuition congruence |]).
  by apply elem_of_nil in H.
Qed.

Lemma small_cases (k : Z) :
  0 ≤ k < 12 →
  k ∈ [0; 1; 2; 3; 4; 5; 6; 7; 8; 9; 10; 11].
Proof.
  intros H.
  rewrite !elem_of_cons, elem_of_nil. lia.
Qed.

Lemma indexOf_at_index (k : Z) :
  0 ≤ k < 12 → indexOf ALL_NOTES (at_index ALL_NOTES k) = k.
Proof.
  intros H%small_cases.
  repeat (apply elem_of_cons in H as [-> | H]; [reflexivity |]).
  by apply elem_of_nil in H.
Qed.

Lemma at_index_elem (k : Z) :
  0 ≤ k < 12 → at_index ALL_NOTES k ∈ ALL_NOTES.
Proof.
  intros H%small_cases.
  repeat (apply elem_of_cons in H as [-> | H]; [vm_compute; set_solver |]).
  by apply elem_of_nil in H.
Qed.

Lemma rem12_range (a : Z) : 0 ≤ a → 0 ≤ Z.rem a 12 < 12.
Proof. intros H. rewrite Z.rem_mod_nonneg by lia. apply Z.mod_pos_bound. lia. Qed.

(** Transposition by two different amounts below an octave lands on two
    different pitch classes. *)
Lemma transpose_inj (r x y : Z) :
  0 ≤ r → 0 ≤ x < 12 → 0 ≤ y < 12 →
  Z.rem (r + x) 12 = Z.rem (r + y) 12 → x = y.
Proof.
  intros Hr Hx Hy. rewrite !Z.rem_mod_nonneg by lia. intros E.
  pose proof (Z.div_mod (r + x) 12 ltac:(lia)) as Dx.
  pose proof (Z.div_mod (r + y) 12 ltac:(lia)) as Dy.
  pose proof (Z.mod_pos_bound (r + x) 12 ltac:(lia)).
  rewrite E in Dx. lia.
Qed.

(** ** The scale catalogue *)

(** The registered patterns, as the list of bindings of the table. *)
Lemma SCALE_PATTERNS_cases (scaleType : string) (pattern : list Z) :
  SCALE_PATTERNS !! scaleType = Some pattern →
  (scaleType, pattern) ∈
    [ ("Major",                [0; 2; 4; 5; 7; 9; 11]);
      ("Natural Minor",        [0; 2; 3; 5; 7; 8; 10]);
      ("Melodic Minor (Jazz)", [0; 2; 3; 5; 7; 9; 11]);
      ("Harmonic Minor",       [0; 2; 3; 5; 7; 8; 11]);
      ("Dorian",               [0; 2; 3; 5; 7; 9; 10]);
      ("Mixolydian",           [0; 2; 4; 5; 7; 9; 10]);
      ("Locrian",              [0; 1; 3; 5; 6; 8; 10]);
      ("Phrygian",             [0; 1; 3; 5; 7; 8; 10]);
      ("Lydian",               [0; 2; 4; 6; 7; 9; 11]) ].
Proof.
  unfold SCALE_PATTERNS. intros H.
  by apply elem_of_list_to_map_2 in H.
Qed.

(** Every registered pattern: seven intervals, strictly increasing, within
    an octave. *)
Lemma pattern_shape (scaleType : string) (pattern : list Z) :
  SCALE_PATTERNS !! scaleType = Some pattern →
  length pattern = 7%nat ∧ StronglySorted Z.lt pattern ∧ Forall (fun iv => 0 ≤ iv ≤ 11) pattern.
Proof.
  intros H%SCALE_PATTERNS_cases.
  repeat (apply elem_of_cons in H as [[= -> ->] | H];
          [split; [reflexivity | split; repeat constructor; lia] |]).
  by apply elem_of_nil in H.
Qed.

Lemma StronglySorted_lt_NoDup (l : list Z) : StronglySorted Z.lt l → NoDup l.
Proof.
  induction 1 as [| x l Hl IH Hx]; constructor; [| exact IH].
  intros Hin. rewrite Forall_forall in Hx.
  specialize (Hx x Hin). lia.
Qed.

(** Transposing a root by distinct intervals gives distinct pitch classes of
    the alphabet. *)
Lemma scaleNotesOf_NoDup (rootIdx : Z) (pattern : list Z) :
  0 ≤ rootIdx < 12 →
  Forall (fun iv => 0 ≤ iv ≤ 11) pattern →
  NoDup pattern →
  NoDup (scaleNotesOf rootIdx pattern).
Proof.
  intros Hr Hiv Hnd. unfold scaleNotesOf.
  apply (NoDup_fmap_2_strong _ pattern); [| exact Hnd].
  intros x y Hx Hy E.
  rewrite Forall_forall in Hiv.
  pose proof (Hiv x Hx). pose proof (Hiv y Hy). cbv beta in *.
  apply (f_equal (indexOf ALL_NOTES)) in E.
  rewrite !indexOf_at_index in E by (apply rem12_range; lia).
  apply (transpose_inj rootIdx); lia.
Qed.

Lemma scaleNotesOf_alphabet (rootIdx : Z) (pattern : list Z) :
  0 ≤ rootIdx < 12 →
  Forall (fun iv => 0 ≤ iv ≤ 11) pattern →
  Forall (fun n => n ∈ ALL_NOTES) (scaleNotesOf rootIdx pattern).
Proof.
  intros Hr Hiv. unfold scaleNotesOf. apply Forall_fmap.
  eapply Forall_impl; [exact Hiv |].
  intros iv Hx. unfold compose. cbv beta in *. apply at_index_elem, rem12_range. lia.
Qed.

(** C8.  For each of the 12 roots and each of the 9 registered patterns,
    [buildScale] returns the root transposed by the pattern's seven
    intervals, which are strictly increasing and lie in [0,11]; the result
    has exactly seven pitch classes, all of the chromatic alphabet, without
    duplicates. *)
Theorem C8_buildScale_seven_distinct (r scaleType : string) (pattern : list Z) :
  r ∈ ALL_NOTES →
  SCALE_PATTERNS !! scaleType = Some pattern →
  length ALL_NOTES = 12%nat ∧ size SCALE_PATTERNS = 9%nat ∧
  length pattern = 7%nat ∧ StronglySorted Z.lt pattern ∧
  Forall (fun iv => 0 ≤ iv ≤ 11) pattern ∧
  ∃ scale,
    buildScale r scaleType = Ok scale ∧
    scale = map (fun iv => at_index ALL_NOTES (Z.rem (indexOf ALL_NOTES r + iv) 12)) pattern ∧
    length scale = 7%nat ∧
    Forall (fun n => n ∈ ALL_NOTES) scale ∧
    NoDup scale.
Proof.
  intros Hr Hp.
  destruct (pattern_shape _ _ Hp) as (Hlen & Hsorted & Hrange).
  destruct (at_index_indexOf _ Hr) as [Hidx _].
  split; [reflexivity |]. split; [by vm_compute |].
  do 3 (split; [assumption |]).
  exists (scaleNotesOf (indexOf ALL_NOTES r) pattern).
  split; [unfold buildScale; by rewrite Hp |].
  split; [reflexivity |].
  split; [unfold scaleNotesOf; by rewrite length_map |].
  split; [by apply scaleNotesOf_alphabet |].
  apply scaleNotesOf_NoDup; auto using StronglySorted_lt_NoDup.
Qed.

Lemma C8_buildScale_witness :
  buildScale "C" "Major" = Ok ["C"; "D"; "E"; "F"; "G"; "A"; "B"] ∧
  ∃ scale, buildScale "A" "Dorian" = Ok scale ∧ length scale = 7%nat ∧ NoDup scale.
Proof.
  split; [reflexivity |].
  destruct (C8_buildScale_seven_distinct "A" "Dorian" [0; 2; 3; 5; 7; 9; 10])
    as (_ & _ & _ & _ & _ & scale & Hs & _ & Hlen & _ & Hnd).
  - unfold ALL_NOTES. rewrite !elem_of_cons. tauto.
  - reflexivity.
  - exists scale. auto.
Defined.

(** ** The classifier as a decision table *)

Lemma lookupRow_nil {K} `{EqDecision K} (k : K) : lookupRow k [] = None.
Proof. reflexivity. Qed.

Lemma lookupRow_cons {K} `{EqDecision K} (k k' : K) (v : string) rows :
  lookupRow k ((k', v) :: rows) = if decide (k' = k) then Some v else lookupRow k rows.
Proof.
  unfold lookupRow. simpl. destruct (decide (k' = k)); [reflexivity |].
  by destruct (list_find _ rows) as [[? ?] |].
Qed.

(** Settles the comparisons of the classifier and the row matches of the
    table once every interval is a literal or known to differ from the
    literals of the table. *)
Ltac settle_eqb :=
  repeat match goal with
         | |- context [?a =? ?b] =>
             first [ rewrite (proj2 (Z.eqb_eq a b)) by lia
                   | rewrite (proj2 (Z.eqb_neq a b)) by lia ]
         end.

Ltac settle_rows :=
  repeat (rewrite lookupRow_cons || rewrite lookupRow_nil);
  repeat match goal with
         | |- context [decide (?x = ?y)] =>
             first [ rewrite (decide_True (P := x = y)) by reflexivity
                   | rewrite (decide_False (P := x = y)) by (intros [=]; lia) ]
         end.

Example classifier_rows :
  getQualityFromIntervals 4 7 (Some 11) = "maj7" ∧
  getQualityFromIntervals 4 7 (Some 10) = "7" ∧
  getQualityFromIntervals 3 7 (Some 10) = "m7" ∧
  getQualityFromIntervals 3 7 (Some 11) = "mMaj7" ∧
  getQualityFromIntervals 3 6 (Some 10) = "m7b5" ∧
  getQualityFromIntervals 3 6 (Some 9) = "dim7" ∧
  getQualityFromIntervals 4 7 None = "" ∧
  getQualityFromIntervals 3 7 None = "m" ∧
  getQualityFromIntervals 3 6 None = "dim".
Proof. repeat split. Qed.

(** C2 (amended).  The classifier is the decision table: with a seventh,
    (4,7,11) maj7, (4,7,10) dominant-7, (3,7,10) m7, (3,7,11) m(maj7),
    (3,6,10) m7b5, (3,6,9) dim7; for a triple outside these rows, and
    without a seventh, the triad rows (4,7) major, (3,7) minor, (3,6)
    diminished apply to (third, fifth); a combination in no row gets the
    empty tag, which is the tag of the major triad. *)
Theorem C2_classifier_table (third fifth : Z) (seventh : option Z) :
  getQualityFromIntervals third fifth seventh = classifyTable third fifth seventh.
Proof.
  assert (Ht : third = 3 ∨ third = 4 ∨ (third ≠ 3 ∧ third ≠ 4)) by lia.
  assert (Hf : fifth = 6 ∨ fifth = 7 ∨ (fifth ≠ 6 ∧ fifth ≠ 7)) by lia.
  unfold getQualityFromIntervals, classifyTable, seventhRows, triadRows.
  destruct seventh as [s |].
  - assert (Hs : s = 9 ∨ s = 10 ∨ s = 11 ∨ (s ≠ 9 ∧ s ≠ 10 ∧ s ≠ 11)) by lia.
    destruct Ht as [-> | [-> | [? ?]]], Hf as [-> | [-> | [? ?]]],
          Hs as [-> | [-> | [-> | (? & ? & ?)]]];
      settle_eqb; cbn [mbind option_bind]; settle_rows; reflexivity.
  - destruct Ht as [-> | [-> | [? ?]]], Hf as [-> | [-> | [? ?]]];
      settle_eqb; cbn [mbind option_bind]; settle_rows; reflexivity.
Qed.

(** C2, as stated, fails: an interval pair outside the table is given the
    very tag of the major triad (4,7), and a triple outside the seventh rows
    is given the tag of its triad. *)
Lemma C2_no_unresolved_tag :
  getQualityFromIntervals 5 7 None = getQualityFromIntervals 4 7 None ∧
  getQualityFromIntervals 4 8 (Some 11) = getQualityFromIntervals 4 7 None ∧
  getQualityFromIntervals 3 7 (Some 9) = getQualityFromIntervals 3 7 None.
Proof. repeat split. Qed.

(** ** Shape templates and shifting *)

Lemma CHORD_SHAPES_cases (key : string) (sh : Shape) :
  CHORD_SHAPES !! key = Some sh →
  (key, sh) ∈
    [ ("",      {| eShape := [0; 2; 2; 1; 0; 0];    aShape := [-1; 0; 2; 2; 2; 0] |});
      ("m",     {| eShape := [0; 2; 2; 0; 0; 0];    aShape := [-1; 0; 2; 2; 1; 0] |});
      ("dim",   {| eShape := [0; 1; 2; 0; -1; -1];  aShape := [-1; 0; 1; 2; 1; -1] |});
      ("sus4",  {| eShape := [0; 2; 2; 2; 0; 0];    aShape := [-1; 0; 2; 2; 3; 0] |});
      ("sus2",  {| eShape := [0; 2; 4; 4; 0; 0];    aShape := [-1; 0; 2; 2; 0; 0] |});
      ("add9",  {| eShape := [0; 2; 4; 1; 0; 0];    aShape := [-1; 0; 2; 4; 2; 0] |});
      ("6",     {| eShape := [0; 2; 2; 1; 2; 0];    aShape := [-1; 0; 2; 2; 2; 2] |});
      ("maj7",  {| eShape := [0; 2; 1; 1; 0; 0];    aShape := [-1; 0; 2; 1; 2; 0] |});
      ("m7",    {| eShape := [0; 2; 0; 0; 0; 0];    aShape := [-1; 0; 2; 0; 1; 0] |});
      ("7",     {| eShape := [0; 2; 0; 1; 0; 0];    aShape := [-1; 0; 2; 0; 2; 0] |});
      ("7sus4", {| eShape := [0; 2; 0; 2; 0; 0];    aShape := [-1; 0; 2; 0; 3; 0] |});
      ("m7b5",  {| eShape := [0; -1; 0; 0; -1; -1]; aShape := [-1; 0; 1; 0; 1; -1] |});
      ("dim7",  {| eShape := [0; 1; 0; 0; -1; -1];  aShape := [-1; 0; 1; 2; 1; -1] |}) ].
Proof.
  unfold CHORD_SHAPES. intros H.
  by apply elem_of_list_to_map_2 in H.
Qed.

(** The fold-down branch needs a first string that is played and that
    lands above fret 12; without one, shifting is plain addition. *)
Lemma createVoicingFromShape_no_fold (shape : list Z) (rootFret : Z) :
  (∀ s0, shape0 shape = Some s0 → s0 = -1 ∨ s0 + rootFret ≤ 12) →
  createVoicingFromShape shape rootFret = shiftBy rootFret shape.
Proof.
  intros H. unfold createVoicingFromShape, shiftBy.
  apply map_ext. intros f.
  destruct (f =? -1); [reflexivity |].
  destruct (shape0 shape) as [s0 |]; [| reflexivity].
  destruct (H s0 eq_refl) as [-> | Hle].
  - by rewrite andb_false_r.
  - replace (s0 + rootFret >? 12) with false by lia.
    by rewrite andb_false_r.
Qed.

Lemma shiftBy_bound (rootFret bound : Z) (shape : list Z) :
  0 ≤ rootFret →
  Forall (fun f => f ≤ bound) shape →
  Forall (fun f => f ≤ bound + rootFret) (shiftBy rootFret shape).
Proof.
  intros Hr Hs. unfold shiftBy. apply Forall_fmap.
  eapply Forall_impl; [exact Hs |].
  intros f Hf. unfold compose. cbv beta in *.
  destruct (Z.eqb_spec f (-1)); lia.
Qed.

(** Every registered template: the E-shape starts on the open string, the
    A-shape starts muted, and no offset exceeds 4. *)
Lemma registered_shape (key : string) (sh : Shape) :
  CHORD_SHAPES !! key = Some sh →
  shape0 (eShape sh) = Some 0 ∧ shape0 (aShape sh) = Some (-1) ∧
  Forall (fun f => f ≤ 4) (eShape sh) ∧ Forall (fun f => f ≤ 4) (aShape sh).
Proof.
  intros H%CHORD_SHAPES_cases.
  repeat (apply elem_of_cons in H as [[= -> ->] | H];
          [repeat split; repeat constructor; lia |]).
  by apply elem_of_nil in H.
Qed.

(** C10.  For every registered shape template and every root fret in 0..11,
    shifting is pure addition on the played strings: the fold-down by 12 is
    never taken, because every E-shape has first offset 0 (so its first
    string lands at most on fret 11) and every A-shape has first entry -1;
    hence no fret of a shifted shape exceeds 15. *)
Theorem C10_shift_is_addition (key : string) (sh : Shape) (rootFret : Z) :
  CHORD_SHAPES !! key = Some sh →
  0 ≤ rootFret ≤ 11 →
  shape0 (eShape sh) = Some 0 ∧ shape0 (aShape sh) = Some (-1) ∧
  createVoicingFromShape (eShape sh) rootFret
    = map (fun f => if f =? -1 then -1 else f + rootFret) (eShape sh) ∧
  createVoicingFromShape (aShape sh) rootFret
    = map (fun f => if f =? -1 then -1 else f + rootFret) (aShape sh) ∧
  Forall (fun f => f ≤ 15) (createVoicingFromShape (eShape sh) rootFret) ∧
  Forall (fun f => f ≤ 15) (createVoicingFromShape (aShape sh) rootFret).
Proof.
  intros Hsh Hr.
  destruct (registered_shape _ _ Hsh) as (He0 & Ha0 & He & Ha).
  assert (HE : createVoicingFromShape (eShape sh) rootFret = shiftBy rootFret (eShape sh)).
  { apply createVoicingFromShape_no_fold. intros s0 Hs0.
    rewrite He0 in Hs0. injection Hs0 as <-. lia. }
  assert (HA : createVoicingFromShape (aShape sh) rootFret = shiftBy rootFret (aShape sh)).
  { apply createVoicingFromShape_no_fold. intros s0 Hs0.
    rewrite Ha0 in Hs0. injection Hs0 as <-. lia. }
  do 2 (split; [assumption |]).
  split; [exact HE |]. split; [exact HA |].
  rewrite HE, HA.
  split; (eapply Forall_impl; [apply (shiftBy_bound rootFret 4); [lia | assumption] |]);
    intros f Hf; cbv beta in *; lia.
Qed.

Lemma C10_shift_witness :
  createVoicingFromShape [0; 2; 4; 4; 0; 0] 11 = [11; 13; 15; 15; 11; 11] ∧
  Forall (fun f => f ≤ 15) (createVoicingFromShape [-1; 0; 2; 2; 0; 0] 11).
Proof.
  pose proof (C10_shift_is_addition "sus2"
                {| eShape := [0; 2; 4; 4; 0; 0]; aShape := [-1; 0; 2; 2; 0; 0] |} 11
                eq_refl ltac:(lia)) as (_ & _ & HE & _ & _ & HA).
  split; [exact HE | exact HA].
Defined.

(** ** Reasoning about [Result] *)

Lemma Ok_bind {A B} (a : A) (f : A → Result B) : Ok a ≫= f = f a.
Proof. reflexivity. Qed.

Lemma mret_bind {A B} (a : A) (f : A → Result B) : mret a ≫= f = f a.
Proof. reflexivity. Qed.

Lemma bind_Ok {A B} (r : Result A) (f : A → Result B) (b : B) :
  r ≫= f = Ok b → ∃ a, r = Ok a ∧ f a = Ok b.
Proof. destruct r as [a | e]; [eauto | discriminate]. Qed.

Lemma mret_Ok {A} (a b : A) : mret a = Ok b → a = b.
Proof. by intros [= ->]. Qed.

Section MapM.
Context {A B : Type}.
Implicit Types (f g : A → Result B) (l : list A).

Lemma mapM_Ok f l (ys : list B) :
  mapM f l = Ok ys → Forall2 (fun x y => f x = Ok y) l ys.
Proof.
  revert ys. induction l as [| x l IH]; intros ys H; simpl in H.
  - apply mret_Ok in H as <-. constructor.
  - apply bind_Ok in H as (y & Hy & H).
    apply bind_Ok in H as (k & Hk & H).
    apply mret_Ok in H as <-. constructor; auto.
Qed.

Lemma mapM_total f l :
  Forall (fun x => ∃ y, f x = Ok y) l → ∃ ys, mapM f l = Ok ys.
Proof.
  induction 1 as [| x l [y Hy] _ [ys Hys]]; simpl.
  - by eexists.
  - rewrite Hy, Ok_bind, Hys, Ok_bind. by eexists.
Qed.

Lemma mapM_ext f g l :
  (∀ x, f x = g x) → mapM f l = mapM g l.
Proof.
  intros E. induction l as [| x l IH]; [reflexivity |].
  simpl. by rewrite E, IH.
Qed.

End MapM.

(** ** Voicing synthesis is total *)

Lemma shapeKeyOf_registered (q : string) : is_Some (CHORD_SHAPES !! shapeKeyOf q).
Proof.
  unfold shapeKeyOf. case_bool_decide as Hq; [exact Hq |].
  repeat case_match; unfold is_Some; eexists; vm_compute; reflexivity.
Qed.

(** How the key is chosen: the quality itself when it has a template;
    otherwise one of the four fallback keys. *)
Lemma shapeKeyOf_chain (q : string) :
  (is_Some (CHORD_SHAPES !! q) ∧ shapeKeyOf q = q) ∨
  (CHORD_SHAPES !! q = None ∧
   shapeKeyOf q = (if String.eqb q "mMaj7" then "m7"
                   else if String.prefix "m" q then "m"
                   else if String.prefix "dim" q then "dim"
                   else "")).
Proof.
  unfold shapeKeyOf. case_bool_decide as Hq.
  - by left.
  - right. split; [| reflexivity].
    destruct (CHORD_SHAPES !! q) eqn:E; [| reflexivity].
    exfalso. apply Hq. by eexists.
Qed.

Lemma inversionVoicing_total (shapeName bass : string) (idx : Z) (label : string) :
  is_Some (INVERSION_SHAPES !! shapeName) →
  ∃ vs, inversionVoicing shapeName bass idx label = Ok vs.
Proof.
  intros [sh H]. unfold inversionVoicing. rewrite H. cbn [deref]. rewrite Ok_bind.
  destruct createInversionVoicing; eauto.
Qed.

Ltac inversion_total :=
  match goal with
  | |- context [inversionVoicing ?k ?b ?s ?l] =>
      let vs := fresh "vs" in
      let H := fresh "H" in
      destruct (inversionVoicing_total k b s l) as [vs H];
      [unfold is_Some; eexists; vm_compute; reflexivity | rewrite H, Ok_bind; clear H]
  end.

(** What [buildChord] returns: it never throws, the chord carries the
    arguments, three notes, and two shape voicings ahead of any inversion. *)
Lemma buildChord_spec (i : nat) (third fifth q n r : string)
      (f : ChordFunction) (cat : Category) (cid : string) :
  ∃ c sh rest,
    buildChord i third fifth q n r f cat cid = Ok c ∧
    CHORD_SHAPES !! shapeKeyOf q = Some sh ∧
    root c = n ∧ quality c = q ∧ roman c = r ∧ function c = f ∧ category c = cat ∧
    isDiatonic c = true ∧ activeVoicingIdx c = 0 ∧ scaleDegree c = Z.of_nat i + 1 ∧
    notes c = [n; third; fifth] ∧
    map frets (voicings c)
      = createVoicingFromShape (eShape sh) (fretOn (indexOf ALL_NOTES "E") n)
          :: createVoicingFromShape (aShape sh) (fretOn (indexOf ALL_NOTES "A") n)
          :: rest.
Proof.
  unfold buildChord.
  destruct (shapeKeyOf_registered q) as [sh Hsh]. rewrite Hsh.
  replace (Some sh ∪ CHORD_SHAPES !! "") with (Some sh) by reflexivity.
  cbn [deref]. rewrite Ok_bind. cbv zeta.
  destruct (String.eqb q "") eqn:E1, (String.eqb q "m") eqn:E2; cbn [orb];
    repeat inversion_total; rewrite ?mret_bind;
    eexists _, sh, _; (split; [reflexivity |]);
    cbn [root quality roman function category isDiatonic activeVoicingIdx
         scaleDegree notes voicings];
    repeat (split; [reflexivity |]); cbn [map app frets]; reflexivity.
Qed.

Lemma addWildcard_spec (rootIdx degreeOffset : Z) (q r label : string) :
  ∃ c v,
    addWildcard rootIdx degreeOffset q r label = Ok c ∧
    root c = at_index ALL_NOTES (Z.rem (rootIdx + degreeOffset) 12) ∧
    quality c = q ∧ roman c = r ∧ function c = Stranger ∧ category c = Wildcard ∧
    isDiatonic c = false ∧ scaleDegree c = 0 ∧
    notes c = [root c; "?"; "?"] ∧ voicings c = [v].
Proof.
  unfold addWildcard. cbv zeta.
  assert (∃ sh, CHORD_SHAPES !! q ∪ CHORD_SHAPES !! "" = Some sh) as [sh ->].
  { replace (CHORD_SHAPES !! "") with (Some {| eShape := [0; 2; 2; 1; 0; 0];
                                                aShape := [-1; 0; 2; 2; 2; 0] |})
      by reflexivity.
    destruct (CHORD_SHAPES !! q); by eexists. }
  cbn [deref]. rewrite Ok_bind.
  eexists _, _. split; [reflexivity |]. by cbn.
Qed.

(** C6 (amended).  Voicing synthesis never fails and never returns an
    empty list, whatever the root and whichever of the generator's quality
    tags it is given (the results of the classifier, the empty tag it
    returns for unmatched intervals among them, and the variation tags; for
    a wildcard the empty tag and m): [buildChord] always settles on a
    registered template and returns at least its E-shape and A-shape
    voicings, and a wildcard chord gets exactly one voicing.  The template
    is the one of the quality itself when there is one; otherwise the chain
    is: the m7 template for mMaj7, then the minor triad for a tag starting
    with m, then the diminished triad for a tag starting with dim, then
    major as last resort.  The degree index is one of the seven of a scale,
    the root index of a wildcard what [indexOf] can return and its offset
    within the octave. *)
Theorem C6_voicings_total_nonempty :
  (∀ (i : nat) (thirdNote fifthNote q n r : string) (f : ChordFunction)
     (cat : Category) (customId : string),
      (i < 7)%nat →
      q ∈ generatedTags →
      ∃ c sh,
        buildChord i thirdNote fifthNote q n r f cat customId = Ok c ∧
        CHORD_SHAPES !! shapeKeyOf q = Some sh ∧
        (CHORD_SHAPES !! q = Some sh ∧ shapeKeyOf q = q ∨
         CHORD_SHAPES !! q = None ∧
         shapeKeyOf q = (if String.eqb q "mMaj7" then "m7"
                         else if String.prefix "m" q then "m"
                         else if String.prefix "dim" q then "dim"
                         else "")) ∧
        (2 ≤ length (voicings c))%nat ∧
        frets <$> voicings c !! 0%nat
          = Some (createVoicingFromShape (eShape sh) (fretOn 4 n)) ∧
        frets <$> voicings c !! 1%nat
          = Some (createVoicingFromShape (aShape sh) (fretOn 9 n))) ∧
  (∀ (rootIdx degreeOffset : Z) (quality roman label : string),
      -1 ≤ rootIdx < 12 →
      0 ≤ degreeOffset < 12 →
      quality ∈ wildcardTags →
      ∃ c, addWildcard rootIdx degreeOffset quality roman label = Ok c ∧
           length (voicings c) = 1%nat).
Proof.
  split.
  - intros i third fifth q n r f cat cid _ _.
    destruct (buildChord_spec i third fifth q n r f cat cid)
      as (c & sh & rest & Hc & Hsh & _ & _ & _ & _ & _ & _ & _ & _ & _ & Hv).
    exists c, sh. split; [exact Hc |]. split; [exact Hsh |].
    split.
    { destruct (shapeKeyOf_chain q) as [[_ Hq] | [Hn Hq]]; [left | by right].
      split; [| exact Hq]. by rewrite <- Hq at 1. }
    destruct (voicings c) as [| v1 [| v2 vs]]; try discriminate.
    injection Hv as H1 H2 _. cbn. rewrite H1, H2.
    split; [lia |]. split; reflexivity.
  - intros rootIdx off q r label _ _ _.
    destruct (addWildcard_spec rootIdx off q r label)
      as (c & v & Hc & _ & _ & _ & _ & _ & _ & _ & _ & Hv).
    exists c. split; [exact Hc |]. by rewrite Hv.
Qed.

Lemma C6_voicings_witness :
  (∃ c, buildChord 0 "E" "G" "mMaj7" "C" "i7" Home Team "" = Ok c ∧
        shapeKeyOf "mMaj7" = "m7" ∧ (2 ≤ length (voicings c))%nat) ∧
  (∃ c, addWildcard 0 5 "m" "iv" "Minor Plagal" = Ok c ∧ length (voicings c) = 1%nat).
Proof.
  destruct C6_voicings_total_nonempty as [Hbuild Hwild].
  split.
  - destruct (Hbuild 0%nat "E" "G" "mMaj7" "C" "i7" Home Team "")
      as (c & sh & Hc & _ & _ & Hlen & _).
    + lia.
    + unfold generatedTags. rewrite !elem_of_cons. auto 10.
    + exists c. split; [exact Hc |]. split; [reflexivity | exact Hlen].
  - apply (Hwild 0 5 "m" "iv" "Minor Plagal").
    + lia.
    + lia.
    + unfold wildcardTags. rewrite !elem_of_cons. auto.
Defined.

(** C6, as stated, fails in its account of the chain: mMaj7 has no template
    of its own and is given the m7 template, which is neither the exact
    quality nor a bare triad family nor major; the voicing differs from the
    one the minor triad template would give. *)
Lemma C6_mMaj7_falls_back_to_m7 :
  CHORD_SHAPES !! "mMaj7" = None ∧
  shapeKeyOf "mMaj7" = "m7" ∧
  (shapeKeyOf "mMaj7" ∉ ["mMaj7"; "m"; "dim"; ""]) ∧
  ∃ c, buildChord 0 "C" "E" "mMaj7" "A" "i7" Home Team "" = Ok c ∧
       frets <$> voicings c !! 0%nat = Some [5; 7; 5; 5; 5; 5] ∧
       createVoicingFromShape [0; 2; 2; 0; 0; 0] (fretOn 4 "A") = [5; 7; 7; 5; 5; 5].
Proof.
  split; [reflexivity |]. split; [reflexivity |].
  split.
  - rewrite !elem_of_cons, elem_of_nil. vm_compute.
    intros [H | [H | [H | [H | []]]]]; discriminate.
  - eexists. split; [vm_compute; reflexivity |]. split; reflexivity.
Qed.

(** ** The catalogue, chord by chord *)

Lemma buildChord_inv (i : nat) (third fifth q n r : string)
      (f : ChordFunction) (cat : Category) (cid : string) (c : Chord) :
  cat ≠ Wildcard →
  buildChord i third fifth q n r f cat cid = Ok c →
  degreeChord i n c.
Proof.
  intros Hcat H.
  destruct (buildChord_spec i third fifth q n r f cat cid)
    as (c' & sh & rest & Hc & _ & Hr & _ & _ & _ & Hc' & Hd & _ & Hs & Hn & Hv).
  rewrite H in Hc. injection Hc as <-.
  unfold degreeChord. rewrite Hr, Hn, Hc', Hd, Hs.
  repeat split; eauto.
  apply (f_equal length) in Hv. rewrite length_map in Hv. simpl in Hv. lia.
Qed.

(** Takes a successful run apart, bind by bind and branch by branch. *)
Ltac inv_result :=
  repeat match goal with
         | H : _ ≫= _ = Ok _ |- _ => apply bind_Ok in H as (? & ? & ?)
         | H : mret _ = Ok _ |- _ => apply mret_Ok in H; subst
         | H : (if ?b then _ else _) = Ok _ |- _ => destruct b
         | H : buildChord _ _ _ _ _ _ _ _ _ = Ok _ |- _ =>
             apply buildChord_inv in H; [| discriminate]
         end.

Lemma degreeChords_inv (scaleType style : string) (scaleNotes : list string)
      (i : nat) (note : string) (cs : list Chord) :
  degreeChords scaleType style scaleNotes i note = Ok cs →
  Forall (degreeChord i note) cs.
Proof.
  intros H. unfold degreeChords in H. cbv zeta in H.
  inv_result; cbn [app];
    repeat match goal with
           | |- Forall _ (_ :: _) => constructor; [assumption |]
           | |- Forall _ [] => constructor
           end.
Qed.

(** A degree below the seventh has a numeral, and nothing else can throw. *)
Lemma degreeChords_total (scaleType style : string) (scaleNotes : list string)
      (i : nat) (note : string) :
  (i < 7)%nat → succeeds (degreeChords scaleType style scaleNotes i note).
Proof.
  intros Hi. unfold degreeChords. cbv zeta.
  assert (∃ r, ROMAN_NUMERALS !! i = Some r) as [r ->].
  { do 7 (destruct i as [| i]; [by eexists |]). lia. }
  cbn [deref default]. rewrite Ok_bind.
  repeat first
    [ rewrite Ok_bind; cbv beta
    | rewrite mret_bind; cbv beta
    | match goal with
      | |- context [buildChord ?a ?b ?c ?d ?e ?f ?g ?h ?k] =>
          destruct (buildChord_spec a b c d e f g h k) as (? & ? & ? & -> & _)
      end
    | match goal with
      | |- context [(if ?b then _ else _) ≫= _] => destruct b
      end ];
    by eexists.
Qed.

Lemma addWildcard_inv (rootIdx degreeOffset : Z) (q r label : string) (c : Chord) :
  addWildcard rootIdx degreeOffset q r label = Ok c →
  isBorrowed rootIdx c (degreeOffset, q, r).
Proof.
  intros H.
  destruct (addWildcard_spec rootIdx degreeOffset q r label)
    as (c' & v & Hc & ? & ? & ? & ? & ? & ? & ? & ? & Hv).
  rewrite H in Hc. injection Hc as <-.
  unfold isBorrowed. rewrite Hv. by repeat split.
Qed.

Lemma wildcards_inv (rootIdx : Z) (scaleType : string) (wild : list Chord) :
  wildcards rootIdx scaleType = Ok wild →
  Forall2 (isBorrowed rootIdx) wild (borrowed scaleType).
Proof.
  unfold wildcards, borrowed, isMajorContext. intros H.
  destruct (String.eqb scaleType "Major" || String.eqb scaleType "Mixolydian");
    cbn [mapM] in H;
    repeat match goal with
           | H : _ ≫= _ = Ok _ |- _ => apply bind_Ok in H as (? & ? & ?)
           | H : mret _ = Ok _ |- _ => apply mret_Ok in H; subst
           | H : addWildcard _ _ _ _ _ = Ok _ |- _ => apply addWildcard_inv in H
           end;
    repeat (constructor; [assumption |]); constructor.
Qed.

Lemma wildcards_total (rootIdx : Z) (scaleType : string) :
  succeeds (wildcards rootIdx scaleType).
Proof.
  unfold wildcards.
  destruct (String.eqb scaleType "Major" || String.eqb scaleType "Mixolydian");
    apply mapM_total;
    repeat (constructor;
            [match goal with
             | |- ∃ y, addWildcard ?a ?b ?c ?d ?e = Ok y =>
                 destruct (addWildcard_spec a b c d e) as (y & _ & -> & _); by exists y
             end |]);
    constructor.
Qed.

(** A catalogue is the diatonic chords, degree by degree, followed by the
    wildcards of the context. *)
Lemma generateKeyChords_inv (r scaleType style : string) (cs : list Chord) :
  generateKeyChords r scaleType style = Ok cs →
  ∃ pattern diatonic wild,
    SCALE_PATTERNS !! scaleType = Some pattern ∧
    Forall (fun c => ∃ i note, degreeChord i note c) diatonic ∧
    wildcards (indexOf ALL_NOTES r) scaleType = Ok wild ∧
    cs = (diatonic ++ wild)%list.
Proof.
  unfold generateKeyChords. intros H. cbv zeta in H.
  apply bind_Ok in H as (pattern & Hp & H).
  apply bind_Ok in H as (diatonic & Hd & H).
  apply bind_Ok in H as (wild & Hw & H).
  apply mret_Ok in H as <-.
  destruct (SCALE_PATTERNS !! scaleType) as [p |]; [| discriminate].
  injection Hp as ->.
  exists pattern, (concat diatonic), wild.
  split; [reflexivity |]. split; [| by split].
  apply mapM_Ok in Hd.
  induction Hd as [| [i note] d l ds Hx _ IH]; [constructor |].
  cbn [concat]. apply Forall_app. split; [| exact IH].
  apply degreeChords_inv in Hx.
  eapply Forall_impl; [exact Hx |]. eauto.
Qed.

Lemma generateKeyChords_total (r scaleType style : string) :
  is_Some (SCALE_PATTERNS !! scaleType) →
  succeeds (generateKeyChords r scaleType style).
Proof.
  intros [pattern Hp]. unfold generateKeyChords. cbv zeta.
  rewrite Hp. cbn [deref]. rewrite Ok_bind.
  destruct (pattern_shape _ _ Hp) as (Hlen & _ & _).
  set (scaleNotes := scaleNotesOf (indexOf ALL_NOTES r) pattern).
  assert (Hsn : length scaleNotes = 7%nat)
    by (unfold scaleNotes, scaleNotesOf; by rewrite length_map).
  destruct (mapM_total
              (fun '(i, note) => degreeChords scaleType style scaleNotes i note)
              (imap pair scaleNotes)) as [diatonic Hd].
  { apply Forall_forall. intros [i note] Hin.
    apply elem_of_lookup_imap in Hin as (i' & note' & [= -> ->] & Hl).
    apply degreeChords_total. apply lookup_lt_Some in Hl. lia. }
  rewrite Hd, Ok_bind.
  destruct (wildcards_total (indexOf ALL_NOTES r) scaleType) as [wild ->].
  rewrite Ok_bind. by eexists.
Qed.

(** C9.  With a pattern name that is not registered, [buildScale] and
    [generateKeyChords] fail: reading the missing pattern throws (the
    runtime's TypeError, the failure the specification calls UnknownScale),
    the caller gets the error and no chord list at all; with a registered
    name both succeed, for every root and style. *)
Theorem C9_unknown_scale_fails (r scaleType style : string) :
  (SCALE_PATTERNS !! scaleType = None →
     buildScale r scaleType = Throw TypeError ∧
     generateKeyChords r scaleType style = Throw TypeError) ∧
  (is_Some (SCALE_PATTERNS !! scaleType) →
     succeeds (buildScale r scaleType) ∧
     succeeds (generateKeyChords r scaleType style)).
Proof.
  split.
  - intros Hn. unfold buildScale, generateKeyChords. by rewrite Hn.
  - intros Hs. split; [| by apply generateKeyChords_total].
    destruct Hs as [pattern Hp]. unfold buildScale. rewrite Hp. by eexists.
Qed.

Lemma C9_unknown_scale_witness :
  generateKeyChords "C" "Whole Tone" "Pop" = Throw TypeError ∧
  buildScale "C" "Whole Tone" = Throw TypeError ∧
  succeeds (generateKeyChords "G" "Dorian" "Jazz") ∧
  succeeds (buildScale "G" "Dorian").
Proof.
  destruct (C9_unknown_scale_fails "C" "Whole Tone" "Pop") as [Hfail _].
  destruct (C9_unknown_scale_fails "G" "Dorian" "Jazz") as [_ Hok].
  destruct (Hfail eq_refl) as [Hs Hg].
  destruct (Hok (ex_intro _ [0; 2; 3; 5; 7; 9; 10] eq_refl)) as [Hs' Hg'].
  auto.
Defined.

(** ** Tones of a chord *)

(** C3 (amended).  For every generated Core chord (any root, any
    registered scale pattern, any style) the first element of [notes] is
    the chord's root, and [notes] has length 3 whatever the quality, triad
    tag or seventh tag alike. *)
Theorem C3_core_notes_root_and_length (r scaleType style : string)
        (cs : list Chord) (c : Chord) :
  generateKeyChords r scaleType style = Ok cs →
  c ∈ cs →
  category c = Team →
  notes c !! 0%nat = Some (root c) ∧ length (notes c) = 3%nat.
Proof.
  intros H Hc Hcat.
  apply generateKeyChords_inv in H as (pattern & diatonic & wild & _ & Hd & Hw & ->).
  apply elem_of_app in Hc as [Hc | Hc].
  - rewrite Forall_forall in Hd.
    destruct (Hd c Hc) as (i & note & Hr & (t & f & Hn) & _).
    rewrite Hn, Hr. by split.
  - apply wildcards_inv in Hw.
    apply (Forall2_Forall_l _ (fun c => category c = Wildcard)) in Hw.
    + rewrite Forall_forall in Hw. specialize (Hw c Hc). congruence.
    + apply Forall_forall. intros b _ c' Hb. apply Hb.
Qed.

Lemma C3_core_notes_witness :
  ∃ cs c, generateKeyChords "C" "Major" "Jazz" = Ok cs ∧ cs !! 0%nat = Some c ∧
          quality c = "maj7" ∧ notes c !! 0%nat = Some (root c) ∧
          length (notes c) = 3%nat.
Proof.
  eexists _, _.
  split; [vm_compute; reflexivity |].
  split; [reflexivity |].
  split; [reflexivity |].
  eapply (C3_core_notes_root_and_length "C" "Major" "Jazz").
  - vm_compute; reflexivity.
  - apply list_elem_of_here.
  - reflexivity.
Defined.

(** C3, as stated, fails: the tonic chord of C Major in the Jazz style has
    the seventh tag maj7 and three notes, not four. *)
Lemma C3_seventh_chord_has_three_notes :
  ∃ cs c, generateKeyChords "C" "Major" "Jazz" = Ok cs ∧ cs !! 0%nat = Some c ∧
          category c = Team ∧ quality c = "maj7" ∧
          notes c = ["C"; "E"; "G"] ∧ length (notes c) ≠ 4%nat.
Proof.
  eexists _, _.
  split; [vm_compute; reflexivity |].
  split; [reflexivity |].
  repeat split. discriminate.
Qed.

(** ** Wildcards *)

Lemma filter_all {A} (P : A → Prop) `{∀ x, Decision (P x)} (l : list A) :
  Forall P l → filter P l = l.
Proof.
  induction 1 as [| x l Hx _ IH]; [reflexivity |].
  by rewrite filter_cons_True, IH.
Qed.

Lemma filter_none {A} (P : A → Prop) `{∀ x, Decision (P x)} (l : list A) :
  Forall (fun x => ¬ P x) l → filter P l = [].
Proof.
  induction 1 as [| x l Hx _ IH]; [reflexivity |].
  by rewrite filter_cons_False.
Qed.

(** The wildcard chords of a catalogue are the wildcard section's output. *)
Lemma catalogue_wildcards (r scaleType style : string) (cs : list Chord) :
  generateKeyChords r scaleType style = Ok cs →
  wildcards (indexOf ALL_NOTES r) scaleType
    = Ok (filter (fun c => category c = Wildcard) cs).
Proof.
  intros H.
  apply generateKeyChords_inv in H as (pattern & diatonic & wild & _ & Hd & Hw & ->).
  rewrite filter_app, filter_none, filter_all; [exact Hw | |].
  - apply wildcards_inv in Hw.
    apply (Forall2_Forall_l _ (fun c => category c = Wildcard)) in Hw; [exact Hw |].
    apply Forall_forall. intros b _ c' Hb. apply Hb.
  - eapply Forall_impl; [exact Hd |].
    intros c (i & note & _ & _ & Hcat & _). exact Hcat.
Qed.

(** The wildcards of a catalogue do not depend on the style, only on the
    key root and on the branch the wildcard section takes: the scales it
    tests for, Major and Mixolydian, yield exactly bVII major, bIII major,
    iv minor and bVI major (10, 3, 5 and 8 semitones above the key root),
    every other scale exactly V major, IV major and bII major (7, 5 and 1
    semitones above it); each is tagged isDiatonic = false, category
    Wildcard and function Stranger. *)
Lemma wildcards_by_branch (r scaleType style style' : string)
        (cs cs' : list Chord) :
  generateKeyChords r scaleType style = Ok cs →
  generateKeyChords r scaleType style' = Ok cs' →
  filter (fun c => category c = Wildcard) cs'
    = filter (fun c => category c = Wildcard) cs ∧
  Forall2 (isBorrowed (indexOf ALL_NOTES r))
          (filter (fun c => category c = Wildcard) cs)
          (if isMajorContext scaleType
           then [ (10, "", "bVII"); (3, "", "bIII"); (5, "m", "iv"); (8, "", "bVI") ]
           else [ (7, "", "V"); (5, "", "IV"); (1, "", "bII") ]).
Proof.
  intros H H'.
  apply catalogue_wildcards in H. apply catalogue_wildcards in H'.
  split; [congruence |].
  by apply wildcards_inv in H.
Qed.

(** In C Major the first wildcard is the chord on A#, ten semitones above
    the key root. *)
Lemma wildcards_of_C_Major :
  ∃ cs c,
    generateKeyChords "C" "Major" "Pop" = Ok cs ∧
    filter (fun c => category c = Wildcard) cs !! 0%nat = Some c ∧
    root c = "A#" ∧ indexOf ALL_NOTES (root c) = 10 ∧ roman c = "bVII" ∧
    function c = Stranger ∧ category c = Wildcard ∧ isDiatonic c = false.
Proof.
  destruct (generateKeyChords "C" "Major" "Pop") as [cs | e] eqn:Hcs;
    [| vm_compute in Hcs; discriminate].
  destruct (generateKeyChords "C" "Major" "Blues") as [cs' | e] eqn:Hcs';
    [| vm_compute in Hcs'; discriminate].
  destruct (wildcards_by_branch "C" "Major" "Pop" "Blues" cs cs' Hcs Hcs')
    as [_ Hb].
  cbn in Hb.
  exists cs.
  destruct (filter _ cs) as [| c rest]; [inversion Hb |].
  apply Forall2_cons_1 in Hb as [(Hr & Hq & Hrn & Hf & Hc & Hd & _) _].
  exists c. cbn in Hr, Hrn.
  split; [reflexivity |]. split; [reflexivity |].
  rewrite Hr. auto 10.
Qed.

(** C7 (defect).  Lydian is a major-family mode, its third lies four
    semitones above the root, but the wildcard section sends it down the
    branch it comments as the minor contexts: for every key root and every
    style the Lydian catalogue has exactly the wildcards V major, IV major
    and bII major (7, 5 and 1 semitones above the key root), and none of
    the bVII, bIII, iv and bVI that the claim gives a major-family mode. *)
Theorem C7_lydian_takes_minor_branch (r style : string) :
  r ∈ ALL_NOTES →
  isMajorFamily "Lydian" = true ∧
  ∃ cs,
    generateKeyChords r "Lydian" style = Ok cs ∧
    Forall2 (isBorrowed (indexOf ALL_NOTES r))
            (filter (fun c => category c = Wildcard) cs)
            [ (7, "", "V"); (5, "", "IV"); (1, "", "bII") ] ∧
    ∀ c, c ∈ cs → category c = Wildcard →
         roman c ∉ ["bVII"; "bIII"; "iv"; "bVI"].
Proof.
  intros _. split; [reflexivity |].
  destruct (generateKeyChords_total r "Lydian" style) as [cs Hcs];
    [by eexists |].
  exists cs. split; [exact Hcs |].
  pose proof (wildcards_inv _ _ _ (catalogue_wildcards _ _ _ _ Hcs)) as Hw.
  change (borrowed "Lydian") with [ (7, "", "V"); (5, "", "IV"); (1, "", "bII") ] in Hw.
  split; [exact Hw |].
  intros c Hc Hcat.
  assert (Hin : c ∈ filter (fun c => category c = Wildcard) cs)
    by (by apply list_elem_of_filter).
  destruct (list_elem_of_lookup_1 _ _ Hin) as [k Hk].
  destruct (Forall2_lookup_l _ _ _ _ _ Hw Hk) as (b & Hb & _ & _ & Hrn & _).
  rewrite Hrn, !elem_of_cons, elem_of_nil.
  do 3 (destruct k as [| k]; [injection Hb as <-; cbn;
          intros [H | [H | [H | [H | []]]]]; discriminate |]).
  discriminate.
Qed.

Lemma C7_lydian_witness :
  ∃ cs,
    generateKeyChords "C" "Lydian" "Pop" = Ok cs ∧
    (root <$> filter (fun c => category c = Wildcard) cs) = ["G"; "F"; "C#"] ∧
    (roman <$> filter (fun c => category c = Wildcard) cs) = ["V"; "IV"; "bII"] ∧
    isMajorFamily "Lydian" = true ∧ isMajorFamily "Major" = true ∧
    isMajorFamily "Mixolydian" = true ∧ isMajorFamily "Dorian" = false.
Proof.
  destruct (C7_lydian_takes_minor_branch "C" "Pop") as (Hfam & cs & Hcs & _ & _).
  - apply list_elem_of_here.
  - exists cs. split; [exact Hcs |].
    vm_compute in Hcs. injection Hcs as <-.
    split; [reflexivity |]. split; [reflexivity |].
    split; [exact Hfam |]. by vm_compute.
Defined.

(** ** Checking whole catalogues *)

Lemma degreeChords_style (scaleType style : string) (scaleNotes : list string)
      (i : nat) (note : string) :
  degreeChords scaleType style scaleNotes i note
  = degreeChords scaleType (styleOf style) scaleNotes i note.
Proof.
  unfold styleOf.
  destruct (String.eqb_spec style "Pop") as [-> | HP]; [reflexivity |].
  destruct (String.eqb_spec style "Jazz") as [-> | HJ]; [reflexivity |].
  destruct (String.eqb_spec style "Blues") as [-> | HB]; [reflexivity |].
  apply String.eqb_neq in HP, HJ, HB.
  unfold degreeChords. rewrite HP, HJ, HB. reflexivity.
Qed.

Lemma generateKeyChords_style (r scaleType style : string) :
  generateKeyChords r scaleType style = generateKeyChords r scaleType (styleOf style).
Proof.
  unfold generateKeyChords. cbv zeta.
  destruct (SCALE_PATTERNS !! scaleType) as [pattern |]; [| reflexivity].
  cbn [deref]. rewrite !Ok_bind.
  erewrite mapM_ext; [reflexivity |].
  intros [i note]. apply degreeChords_style.
Qed.

Lemma styleOf_cases (style : string) : styleOf style ∈ ["Pop"; "Jazz"; "Blues"; ""].
Proof. unfold styleOf. repeat case_match; rewrite !elem_of_cons; auto 10. Qed.

Lemma catalogueCheck_sound (P : string → string → Chord → bool) (style : string) :
  catalogueCheck P style = true →
  ∀ r scaleType cs c,
    r ∈ ALL_NOTES →
    generateKeyChords r scaleType style = Ok cs →
    c ∈ cs →
    P r scaleType c = true.
Proof.
  unfold catalogueCheck. intros Hall r scaleType cs c Hr Hcs Hc.
  rewrite forallb_forall in Hall.
  specialize (Hall r (proj1 (list_elem_of_In _ _) Hr)).
  rewrite forallb_forall in Hall.
  assert (Hst : scaleType ∈ scaleNames).
  { apply generateKeyChords_inv in Hcs as (pattern & _ & _ & Hp & _).
    unfold scaleNames. apply list_elem_of_fmap. exists (scaleType, pattern).
    split; [reflexivity |]. by apply elem_of_map_to_list. }
  specialize (Hall scaleType (proj1 (list_elem_of_In _ _) Hst)).
  rewrite Hcs in Hall. rewrite forallb_forall in Hall.
  apply Hall. by apply list_elem_of_In.
Qed.

(** ** Voicings against the chord's notes *)

Lemma coreTriadCheck_all (style : string) :
  style ∈ ["Pop"; "Jazz"; "Blues"; ""] → catalogueCheck coreTriadCheck style = true.
Proof.
  intros H.
  repeat (apply elem_of_cons in H as [-> | H]; [by vm_compute |]).
  by apply elem_of_nil in H.
Qed.

Lemma voicingsWithinNotes_spec (c : Chord) (v : Voicing) (stringIdx : nat) (fret : Z) :
  voicingsWithinNotes c = true →
  v ∈ voicings c →
  frets v !! stringIdx = Some fret →
  fret ≠ -1 →
  ∃ played, getNoteAtFret stringIdx fret = Some played ∧ note played ∈ notes c.
Proof.
  unfold voicingsWithinNotes. intros Hall Hv Hf Hne.
  rewrite forallb_forall in Hall.
  specialize (Hall v (proj1 (list_elem_of_In _ _) Hv)).
  rewrite forallb_forall in Hall.
  specialize (Hall (stringIdx, fret)
                (proj1 (list_elem_of_In _ _) (elem_of_lookup_imap_2 pair _ _ _ Hf))).
  unfold stringWithinNotes in Hall. cbn beta iota in Hall.
  replace (fret =? -1) with false in Hall by lia.
  destruct (getNoteAtFret stringIdx fret) as [played |]; [| discriminate].
  exists played. split; [reflexivity |].
  by apply bool_decide_eq_true in Hall.
Qed.

(** C1 (amended).  For every Core chord of a generated catalogue whose
    quality is the triad-table row of its own tones (major for intervals
    (4,7), minor for (3,7), diminished for (3,6)) and for every voicing of
    that chord, shape voicings and inversions alike, every string whose
    fret is not -1 decodes in standard tuning to a pitch class that is one
    of the chord's [notes]. *)
Theorem C1_core_triad_voicings_within_notes
        (r scaleType style : string) (cs : list Chord) (c : Chord)
        (v : Voicing) (stringIdx : nat) (fret : Z) :
  r ∈ ALL_NOTES →
  generateKeyChords r scaleType style = Ok cs →
  c ∈ cs →
  category c = Team →
  isTableTriad c →
  v ∈ voicings c →
  frets v !! stringIdx = Some fret →
  fret ≠ -1 →
  ∃ played, getNoteAtFret stringIdx fret = Some played ∧ note played ∈ notes c.
Proof.
  intros Hr Hcs Hc Hcat Htriad Hv Hf Hne.
  rewrite generateKeyChords_style in Hcs.
  pose proof (catalogueCheck_sound _ _ (coreTriadCheck_all _ (styleOf_cases style))
                r scaleType cs c Hr Hcs Hc) as Hchk.
  unfold coreTriadCheck in Hchk.
  rewrite (bool_decide_eq_true_2 _ Hcat), (bool_decide_eq_true_2 _ Htriad) in Hchk.
  by apply (voicingsWithinNotes_spec c v).
Qed.

Lemma C1_core_triad_witness :
  ∃ cs c v,
    generateKeyChords "C" "Major" "Pop" = Ok cs ∧ cs !! 0%nat = Some c ∧
    voicings c !! 0%nat = Some v ∧ frets v !! 3%nat = Some 9 ∧
    ∃ played, getNoteAtFret 3 9 = Some played ∧ note played ∈ notes c.
Proof.
  eexists _, _, _.
  split; [vm_compute; reflexivity |].
  do 3 (split; [reflexivity |]).
  eapply (C1_core_triad_voicings_within_notes "C" "Major" "Pop" _ _ _ 3%nat 9).
  - unfold ALL_NOTES. apply list_elem_of_here.
  - vm_compute. reflexivity.
  - apply list_elem_of_here.
  - reflexivity.
  - reflexivity.
  - apply list_elem_of_here.
  - reflexivity.
  - discriminate.
Defined.

(** C1, as stated, fails: the bVII wildcard of C Major is rooted on A# and
    lists the notes A#, ?, ?; its one voicing frets the A string at 8, which
    sounds F. *)
Lemma C1_wildcard_voicing_outside_notes :
  ∃ cs c v played,
    generateKeyChords "C" "Major" "Pop" = Ok cs ∧ cs !! 19%nat = Some c ∧
    category c = Wildcard ∧ notes c = ["A#"; "?"; "?"] ∧
    voicings c !! 0%nat = Some v ∧ frets v !! 1%nat = Some 8 ∧
    getNoteAtFret 1 8 = Some played ∧ note played = "F" ∧ note played ∉ notes c.
Proof.
  eexists _, _, _, _.
  split; [vm_compute; reflexivity |].
  do 6 (split; [reflexivity |]).
  split; [reflexivity |].
  cbn. rewrite !elem_of_cons, elem_of_nil.
  intros [H | [H | [H | []]]]; discriminate.
Qed.

(** ** The Blues override *)

Lemma bluesCheck_all : catalogueCheck bluesCheck "Blues" = true.
Proof. by vm_compute. Qed.

(** C4 (amended).  For every root pitch class and every registered scale
    pattern, the Blues catalogue has on scale degrees 1, 4 and 5 Core chords
    built on the degree's scale tone with a major third (interval 4) above
    that root, whatever the scale's own third; the chord is of quality
    dominant-7 (tag 7) whenever the scale's fifth above the degree is a
    perfect fifth (interval 7).  The minor seventh (interval 10) only
    enters the classification: [notes] holds three tones, the root, the
    major third and the scale's fifth. *)
Theorem C4_blues_dominant_degrees (r scaleType : string) (scale : list string)
        (cs : list Chord) (c : Chord) :
  r ∈ ALL_NOTES →
  buildScale r scaleType = Ok scale →
  generateKeyChords r scaleType "Blues" = Ok cs →
  c ∈ cs →
  category c = Team →
  scaleDegree c ∈ bluesDegrees →
  root c = at_index scale (scaleDegree c - 1) ∧
  notes c = bluesNotes scale c ∧
  noteInterval c 1 = 4 ∧
  (noteInterval c 2 = 7 → quality c = "7").
Proof.
  intros Hr Hs Hcs Hc Hcat Hdeg.
  pose proof (catalogueCheck_sound _ _ bluesCheck_all r scaleType cs c Hr Hcs Hc) as Hchk.
  unfold bluesCheck in Hchk.
  rewrite (bool_decide_eq_true_2 _ Hcat), (bool_decide_eq_true_2 _ Hdeg), Hs in Hchk.
  cbn [andb] in Hchk.
  apply andb_prop in Hchk as [Hchk H7].
  apply andb_prop in Hchk as [Hchk H3].
  apply andb_prop in Hchk as [Hroot Hnotes].
  apply bool_decide_eq_true in Hroot, Hnotes, H3.
  do 3 (split; [assumption |]).
  intros H5. rewrite H5 in H7. cbn in H7.
  by apply bool_decide_eq_true in H7.
Qed.

Lemma C4_blues_witness :
  ∃ cs c,
    generateKeyChords "C" "Major" "Blues" = Ok cs ∧ cs !! 6%nat = Some c ∧
    category c = Team ∧ scaleDegree c = 4 ∧ root c = "F" ∧
    notes c = ["F"; "A"; "C"] ∧ noteInterval c 1 = 4 ∧ quality c = "7".
Proof.
  eexists _, _.
  split; [vm_compute; reflexivity |].
  do 3 (split; [reflexivity |]).
  edestruct (C4_blues_dominant_degrees "C" "Major") as (Hr & Hn & H3 & H7).
  - unfold ALL_NOTES. apply list_elem_of_here.
  - reflexivity.
  - vm_compute. reflexivity.
  - apply (list_elem_of_lookup_2 _ 6%nat). reflexivity.
  - reflexivity.
  - cbn. unfold bluesDegrees. rewrite !elem_of_cons. auto.
  - split; [exact Hr |]. split; [exact Hn |]. split; [exact H3 |].
    apply H7. reflexivity.
Defined.

(** C4, as stated, fails: the degree-4 chord of C Major Blues stores the
    three tones F, A, C and no seventh, and the degree-1 chord of C Locrian
    Blues, whose scale fifth is diminished, is not tagged dominant-7. *)
Lemma C4_blues_three_notes_and_locrian :
  ∃ cs c cs' c',
    generateKeyChords "C" "Major" "Blues" = Ok cs ∧ cs !! 6%nat = Some c ∧
    category c = Team ∧ scaleDegree c = 4 ∧
    notes c = ["F"; "A"; "C"] ∧ length (notes c) ≠ 4%nat ∧
    generateKeyChords "C" "Locrian" "Blues" = Ok cs' ∧ cs' !! 0%nat = Some c' ∧
    category c' = Team ∧ scaleDegree c' = 1 ∧ quality c' ≠ "7".
Proof.
  eexists _, _, _, _.
  split; [vm_compute; reflexivity |].
  do 4 (split; [reflexivity |]).
  split; [discriminate |].
  split; [vm_compute; reflexivity |].
  do 3 (split; [reflexivity |]).
  discriminate.
Qed.

(** ** Changing the active voicing *)

(** The reference [findById] returns is one of the progression and points
    at an object. *)
Lemma findById_Some (h : gmap loc Chord) (prog : list loc) (sel : Chord)
      (idx : nat) (l : loc) :
  findById h prog sel = Some (idx, l) →
  prog !! idx = Some l ∧ ∃ c, h !! l = Some c ∧ chord_id c = chord_id sel.
Proof.
  unfold findById. intros H.
  apply list_find_Some in H as (Hl & Hid & _).
  split; [exact Hl |].
  apply fmap_Some in Hid as (c & Hc & Hid).
  exists c. split; [exact Hc |]. congruence.
Qed.

(** [addChord] puts a copy of the template at a reference of its own and
    leaves the template where and as it was. *)
Lemma addChord_copies (t : loc) (now : Z) (st : AppState) (tc : Chord) :
  heap st !! t = Some tc →
  ∃ l, l ≠ t ∧ heap st !! l = None ∧
       progression (addChord t now st) = (progression st ++ [l])%list ∧
       selectedChord (addChord t now st) = Some l ∧
       activeVoicingIdx <$> heap (addChord t now st) !! l = Some (activeVoicingIdx tc) ∧
       heap (addChord t now st) !! t = Some tc.
Proof.
  intros Ht. unfold addChord. rewrite Ht. cbn.
  set (l := fresh (dom (heap st))).
  assert (Hfresh : heap st !! l = None)
    by (apply not_elem_of_dom; apply is_fresh).
  assert (Hne : l ≠ t) by congruence.
  exists l. split; [exact Hne |]. split; [exact Hfresh |].
  split; [reflexivity |]. split; [reflexivity |].
  split; [by rewrite lookup_insert_eq |].
  by rewrite lookup_insert_ne.
Qed.

(** C5 (amended).  [changeVoicing] does not produce a new chord value: it
    writes the new index, (current + delta + number of voicings) modulo the
    number of voicings, into the chord object of the progression that has
    the selected chord's id.  The progression afterwards holds the very
    same references, so whoever held the object before sees the new index;
    every other chord object, the catalogue template it was copied from
    included, is left as it was.  This is for a chord object whose active
    index points at one of its voicings, so that it has voicings, and for a
    step below 2^52 in size, the buttons' 1 and -1 among them. *)
Theorem C5_changeVoicing_writes_in_place (delta : Z) (st : AppState)
        (sel : loc) (selObj : Chord) (idx : nat) (l : loc) (c : Chord) :
  selectedChord st = Some sel →
  heap st !! sel = Some selObj →
  findById (heap st) (progression st) selObj = Some (idx, l) →
  heap st !! l = Some c →
  validIdx c →
  exactStep delta c →
  progression (changeVoicing delta st) = progression st ∧
  selectedChord (changeVoicing delta st) = Some l ∧
  heap (changeVoicing delta st) !! l = Some (setIdx (nextVoicingIdx delta c) c) ∧
  ∀ l', l' ≠ l → heap (changeVoicing delta st) !! l' = heap st !! l'.
Proof.
  intros Hsel Hobj Hfind Hc _ _.
  unfold changeVoicing. rewrite Hsel, Hobj, Hfind, Hc. cbn.
  split; [reflexivity |]. split; [reflexivity |].
  split; [apply lookup_insert_eq |].
  intros l' Hne. by apply lookup_insert_ne.
Qed.

Lemma C5_changeVoicing_witness :
  ∃ c,
    heap session1 !! 1%nat = Some c ∧
    progression session1 = [1%nat] ∧
    progression (changeVoicing 1 session1) = [1%nat] ∧
    activeVoicingIdx c = 0 ∧
    activeVoicingIdx <$> heap (changeVoicing 1 session1) !! 1%nat = Some 1 ∧
    heap (changeVoicing 1 session1) !! 0%nat = heap session1 !! 0%nat.
Proof.
  eexists. split; [vm_compute; reflexivity |].
  edestruct (C5_changeVoicing_writes_in_place 1 session1 1%nat)
    as (Hprog & _ & Hl & Hframe).
  - reflexivity.
  - vm_compute. reflexivity.
  - vm_compute. reflexivity.
  - vm_compute. reflexivity.
  - by vm_compute.
  - by vm_compute.
  - split; [reflexivity |].
    split; [rewrite Hprog; reflexivity |].
    split; [reflexivity |].
    split; [rewrite Hl; reflexivity |].
    apply Hframe. discriminate.
Defined.

(** C5, as stated, fails: after [changeVoicing] the chord object that the
    progression passed in refers to no longer has its original index; the
    old and the new progression hold the same reference. *)
Lemma C5_input_chord_is_mutated :
  progression (changeVoicing 1 session1) = progression session1 ∧
  progression session1 !! 0%nat = Some 1%nat ∧
  activeVoicingIdx <$> heap session1 !! 1%nat = Some 0 ∧
  activeVoicingIdx <$> heap (changeVoicing 1 session1) !! 1%nat = Some 1 ∧
  heap (changeVoicing 1 session1) !! 1%nat ≠ heap session1 !! 1%nat.
Proof.
  split; [reflexivity |]. split; [reflexivity |].
  split; [by vm_compute |]. split; [by vm_compute |].
  vm_compute. discriminate.
Qed.

(** ** Decoding frets *)

Lemma tuning_cases (stringIdx : nat) (openNote : NoteInfo) :
  GUITAR_TUNING !! stringIdx = Some openNote →
  0 ≤ indexOf ALL_NOTES (note openNote) < 12.
Proof.
  intros H.
  do 6 (destruct stringIdx as [| stringIdx]; [injection H as <-; by vm_compute |]).
  discriminate.
Qed.

(** X1.  On a string of the tuning, a fret that is not negative (and
    below 2^52, as any fret is) decodes to a note of the chromatic alphabet
    whose pitch number (twelve times the octave plus the index of the
    name) is the open string's pitch number plus the fret: decoding is
    exact, octave included. *)
Theorem X1_getNoteAtFret_pitch (stringIdx : nat) (openNote : NoteInfo) (fret : Z) :
  GUITAR_TUNING !! stringIdx = Some openNote →
  0 ≤ fret < 2 ^ 52 →
  ∃ played,
    getNoteAtFret stringIdx fret = Some played ∧
    note played ∈ ALL_NOTES ∧
    pitchOf played = pitchOf openNote + fret.
Proof.
  intros Hs [Hf _]. pose proof (tuning_cases _ _ Hs) as Ho.
  unfold getNoteAtFret. replace (fret =? -1) with false by lia.
  rewrite Hs. cbn [mbind option_bind].
  set (total := indexOf ALL_NOTES (note openNote) + fret).
  assert (Ht : 0 ≤ total) by (unfold total; lia).
  pose proof (rem12_range total Ht) as Hr.
  eexists. split; [reflexivity |]. cbn [note octave].
  split; [by apply at_index_elem |].
  unfold pitchOf. cbn [note octave].
  rewrite indexOf_at_index by exact Hr.
  rewrite Z.rem_mod_nonneg by lia.
  pose proof (Z.div_mod total 12 ltac:(lia)).
  unfold total in *. lia.
Qed.

Lemma X1_getNoteAtFret_witness :
  ∃ played, getNoteAtFret 1 15 = Some played ∧ note played ∈ ALL_NOTES ∧
            pitchOf played = pitchOf {| note := "A"; octave := 2 |} + 15.
Proof.
  apply (X1_getNoteAtFret_pitch 1 {| note := "A"; octave := 2 |} 15).
  - reflexivity.
  - by vm_compute.
Defined.




(** X3.  For a bass fret and offsets below 2^52 in size, an inversion is
    refused exactly when some played offset lands below fret -1; an offset
    that lands on -1 itself is kept and reads as a muted string.  A
    voicing that is returned has the template's length and no entry below
    -1. *)
Theorem X3_inversion_refused_iff (shape : list Z) (bassFret : Z) :
  Z.abs bassFret < 2 ^ 52 →
  Forall (fun offset => Z.abs offset < 2 ^ 52) shape →
  (createInversionVoicing shape bassFret = None ↔
   ∃ f, f ∈ shape ∧ f ≠ -1 ∧ f + bassFret < -1) ∧
  ∀ frets,
    createInversionVoicing shape bassFret = Some frets →
    frets = map (fun f => if f =? -1 then -1 else f + bassFret) shape ∧
    length frets = length shape ∧
    Forall (fun g => -1 ≤ g) frets.
Proof.
  intros _ _.
  unfold createInversionVoicing. cbv zeta.
  set (shifted := map (fun f => if f =? -1 then -1 else f + bassFret) shape).
  destruct (existsb _ shifted) eqn:E.
  - split; [| discriminate].
    split; [intros _ | reflexivity].
    apply existsb_exists in E as (g & Hin & Hg).
    apply list_elem_of_In, list_elem_of_fmap in Hin as (f & -> & Hf).
    exists f. split; [exact Hf |].
    destruct (Z.eqb_spec f (-1)); [discriminate | lia].
  - split.
    + split; [discriminate |]. intros (f & Hf & Hne & Hlt). exfalso.
      assert (existsb (fun f => (f <? 0) && negb (f =? -1)) shifted = true)
        as Hex; [| congruence].
      apply existsb_exists. exists (f + bassFret). split; [| lia].
      apply list_elem_of_In, list_elem_of_fmap. exists f. split; [| exact Hf].
      destruct (Z.eqb_spec f (-1)); [contradiction | reflexivity].
    + intros frets [= <-]. split; [reflexivity |].
      split; [apply length_map |].
      apply Forall_forall. intros g Hg.
      destruct (Z_lt_le_dec g (-1)) as [Hlt | ?]; [| assumption]. exfalso.
      assert (existsb (fun f => (f <? 0) && negb (f =? -1)) shifted = true)
        as Hex; [| congruence].
      apply existsb_exists. exists g. split; [by apply list_elem_of_In | lia].
Qed.

Lemma X3_inversion_witness :
  createInversionVoicing [0; -1; -2; 0; 1; -1] 0 = None ∧
  createInversionVoicing [0; -1; -2; 0; 1; -1] 1 = Some [1; -1; -1; 1; 2; -1].
Proof.
  assert (Hshape : Forall (fun offset => Z.abs offset < 2 ^ 52) [0; -1; -2; 0; 1; -1])
    by (repeat constructor; by vm_compute).
  destruct (X3_inversion_refused_iff [0; -1; -2; 0; 1; -1] 0) as [[_ Hnone] _];
    [by vm_compute | exact Hshape |].
  destruct (X3_inversion_refused_iff [0; -1; -2; 0; 1; -1] 1) as [_ Hsome];
    [by vm_compute | exact Hshape |].
  split.
  - apply Hnone. exists (-2). rewrite !elem_of_cons. split; [auto |]. lia.
  - destruct (Hsome [1; -1; -1; 1; 2; -1] eq_refl) as [-> _]. reflexivity.
Defined.

(** ** The notes that are played *)

Lemma insertByPitch_perm (x : NoteInfo) (l : list NoteInfo) :
  insertByPitch x l ≡ₚ x :: l.
Proof.
  induction l as [| y l IH]; [reflexivity |]. simpl.
  destruct (pitchOf x <=? pitchOf y); [reflexivity |].
  rewrite IH. apply Permutation_swap.
Qed.

Lemma sortByPitch_perm (l : list NoteInfo) : sortByPitch l ≡ₚ l.
Proof.
  induction l as [| x l IH]; [reflexivity |].
  cbn [sortByPitch foldr]. fold (sortByPitch l).
  by rewrite insertByPitch_perm, IH.
Qed.

Lemma insertByPitch_sorted (x : NoteInfo) (l : list NoteInfo) :
  StronglySorted pitchLe l → StronglySorted pitchLe (insertByPitch x l).
Proof.
  induction 1 as [| y l Hl IH Hy]; simpl.
  - repeat constructor.
  - destruct (Z.leb_spec (pitchOf x) (pitchOf y)) as [Hle | Hgt].
    + constructor; [by constructor |].
      constructor; [exact Hle |].
      eapply Forall_impl; [exact Hy |]. unfold pitchLe. intros z Hz. cbv beta in *. lia.
    + constructor; [exact IH |].
      rewrite insertByPitch_perm. constructor; [unfold pitchLe; lia | exact Hy].
Qed.

Lemma sortByPitch_sorted (l : list NoteInfo) : StronglySorted pitchLe (sortByPitch l).
Proof.
  induction l as [| x l IH]; [constructor |].
  cbn [sortByPitch foldr]. by apply insertByPitch_sorted.
Qed.

Lemma activeVoicing_valid (c : Chord) :
  validIdx c → ∃ v, activeVoicing c = Some v ∧ voicings c !! Z.to_nat (activeVoicingIdx c) = Some v.
Proof.
  intros [H0 Hlen]. unfold activeVoicing.
  replace (activeVoicingIdx c <? 0) with false by lia.
  destruct (lookup_lt_is_Some_2 (voicings c) (Z.to_nat (activeVoicingIdx c))) as [v Hv]; [lia |].
  exists v. by rewrite Hv.
Qed.

(** The strings of a voicing that are pushed are the ones not muted, as
    long as the voicing has no more strings than the guitar. *)
Lemma pushed_length (fs : list Z) (from : nat) :
  (from + length fs ≤ 6)%nat →
  length (omap (fun played : option NoteInfo => played)
               (imap (fun stringIdx fret =>
                        if fret =? -1 then None else getNoteAtFret (from + stringIdx) fret) fs))
  = length (filter (fun fret => fret ≠ -1) fs).
Proof.
  revert from. induction fs as [| f fs IH]; intros from Hlen; [reflexivity |].
  rewrite imap_cons. cbn [omap list_omap length] in *.
  assert (Hrest : imap ((fun stringIdx fret =>
                           if fret =? -1 then None else getNoteAtFret (from + stringIdx) fret) ∘ S) fs
                  = imap (fun stringIdx fret =>
                           if fret =? -1 then None else getNoteAtFret (S from + stringIdx) fret) fs).
  { apply imap_ext. intros i x _. unfold compose. by rewrite Nat.add_succ_r. }
  rewrite Hrest.
  destruct (Z.eqb_spec f (-1)) as [-> | Hne].
  - rewrite filter_cons_False by (intros H; by apply H).
    apply IH. lia.
  - rewrite filter_cons_True by exact Hne.
    unfold getNoteAtFret at 1. replace (f =? -1) with false by lia.
    destruct (lookup_lt_is_Some_2 GUITAR_TUNING (from + 0)%nat) as [o Ho];
      [cbn; lia |].
    rewrite Ho. cbn [mbind option_bind length]. f_equal. apply IH. lia.
Qed.

(** X4.  For a chord whose active index is valid and whose active voicing
    has at most the six strings of the guitar, with frets from -1 up and
    below 2^52, [playSound] strums the notes of the voicing's played
    strings, one per string that is not muted, in ascending pitch. *)
Theorem X4_playSound_sorted (chord : Chord) (voicing : Voicing) :
  validIdx chord →
  voicings chord !! Z.to_nat (activeVoicingIdx chord) = Some voicing →
  (length (frets voicing) ≤ 6)%nat →
  Forall (fun fret => -1 ≤ fret < 2 ^ 52) (frets voicing) →
  ∃ played,
    playSound chord = Some played ∧
    played ≡ₚ pushedNotes voicing ∧
    StronglySorted (fun a b => pitchOf a ≤ pitchOf b) played ∧
    length played = length (filter (fun fret => fret ≠ -1) (frets voicing)).
Proof.
  intros Hvalid Hvoicing Hlen _.
  destruct (activeVoicing_valid chord Hvalid) as (v & Hact & Hv).
  assert (v = voicing) as -> by congruence.
  exists (sortByPitch (pushedNotes voicing)).
  split; [unfold playSound; by rewrite Hact |].
  split; [apply sortByPitch_perm |].
  split; [apply sortByPitch_sorted |].
  rewrite sortByPitch_perm. unfold pushedNotes.
  by apply (pushed_length (frets voicing) 0).
Qed.

Lemma X4_playSound_witness :
  ∃ voicing played,
    voicings tonicTemplate !! 0%nat = Some voicing ∧
    playSound tonicTemplate = Some played ∧ length played = 6%nat ∧
    StronglySorted (fun a b => pitchOf a ≤ pitchOf b) played.
Proof.
  eexists. 
  edestruct (X4_playSound_sorted tonicTemplate) as (played & Hp & _ & Hs & Hl).
  - by vm_compute.
  - vm_compute. reflexivity.
  - cbn. lia.
  - repeat constructor; by vm_compute.
  - exists played. split; [reflexivity |]. split; [exact Hp |].
    split; [rewrite Hl; reflexivity | exact Hs].
Defined.

(** ** The progression handlers *)

Lemma setIdx_same (c : Chord) : setIdx (activeVoicingIdx c) c = c.
Proof. by destruct c. Qed.

(** [findById] looks at ids only, which a write to the active index leaves
    alone. *)
Lemma findById_setIdx (h : gmap loc Chord) (prog : list loc) (sel c : Chord)
      (l : loc) (k k' : Z) :
  h !! l = Some c →
  findById (<[l := setIdx k c]> h) prog (setIdx k' sel) = findById h prog sel.
Proof.
  intros Hl. unfold findById. apply list_find_ext. intros x. cbn [chord_id setIdx].
  destruct (decide (x = l)) as [-> | Hne].
  - by rewrite lookup_insert_eq, Hl.
  - by rewrite lookup_insert_ne.
Qed.

Lemma changeVoicing_withIdx (delta : Z) (st : AppState) (l : loc) (c : Chord)
      (idx : nat) (k : Z) :
  heap st !! l = Some c →
  findById (heap st) (progression st) c = Some (idx, l) →
  changeVoicing delta (withIdx st l c k)
  = withIdx st l c (Z.rem (k + delta + Z.of_nat (length (voicings c)))
                          (Z.of_nat (length (voicings c)))).
Proof.
  intros Hl Hfind. unfold changeVoicing, withIdx.
  cbn [selectedChord heap progression].
  rewrite lookup_insert_eq, (findById_setIdx _ _ c c l k k Hl), Hfind, lookup_insert_eq.
  cbn [activeVoicingIdx voicings setIdx].
  by rewrite insert_insert_eq.
Qed.

Lemma withIdx_same (st : AppState) (l : loc) (c : Chord) :
  selectedChord st = Some l →
  heap st !! l = Some c →
  withIdx st l c (activeVoicingIdx c) = st.
Proof.
  intros Hsel Hl. unfold withIdx. rewrite setIdx_same, (insert_id _ _ _ Hl).
  destruct st. cbn in *. by rewrite Hsel.
Qed.

Lemma changeVoicing_iter (n : nat) (st : AppState) (l : loc) (c : Chord)
      (idx : nat) (k : Z) :
  heap st !! l = Some c →
  findById (heap st) (progression st) c = Some (idx, l) →
  0 ≤ k →
  (0 < length (voicings c))%nat →
  Nat.iter n (changeVoicing 1) (withIdx st l c k)
  = withIdx st l c (if n is O then k else (k + Z.of_nat n) `mod` Z.of_nat (length (voicings c))).
Proof.
  intros Hl Hfind Hk Hlen. induction n as [| n IH]; [reflexivity |].
  rewrite Nat.iter_succ, IH.
  rewrite (changeVoicing_withIdx 1 st l c idx _ Hl Hfind). f_equal.
  set (len := Z.of_nat (length (voicings c))). assert (0 < len) by (unfold len; lia).
  destruct n as [| n].
  - rewrite Z.rem_mod_nonneg by lia.
    replace (k + 1 + len) with (k + 1 + 1 * len) by lia.
    rewrite Z.mod_add by lia. reflexivity.
  - pose proof (Z.mod_pos_bound (k + Z.of_nat (S n)) len ltac:(lia)).
    rewrite Z.rem_mod_nonneg by lia.
    replace ((k + Z.of_nat (S n)) `mod` len + 1 + len)
      with ((k + Z.of_nat (S n)) `mod` len + (1 + 1 * len)) by lia.
    rewrite Zplus_mod_idemp_l.
    replace (k + Z.of_nat (S n) + (1 + 1 * len)) with (k + Z.of_nat (S (S n)) + 1 * len) by lia.
    by rewrite Z.mod_add by lia.
Qed.

(** X5.  Cycling the voicings of the selected chord wraps around and comes
    back: when the selected chord is the first of the progression with its
    id and its active index is valid, one step forward and one step back
    (in either order) restore the state exactly, and so do as many steps
    forward as the chord has voicings. *)
Theorem X5_changeVoicing_round_trip (st : AppState) (l : loc) (c : Chord) (idx : nat) :
  selectedChord st = Some l →
  heap st !! l = Some c →
  findById (heap st) (progression st) c = Some (idx, l) →
  validIdx c →
  changeVoicing (-1) (changeVoicing 1 st) = st ∧
  changeVoicing 1 (changeVoicing (-1) st) = st ∧
  Nat.iter (length (voicings c)) (changeVoicing 1) st = st.
Proof.
  intros Hsel Hl Hfind [H0 Hlen].
  set (len := Z.of_nat (length (voicings c))) in *.
  pose proof (withIdx_same st l c Hsel Hl) as Hst.
  assert (Hback : ∀ k, k = activeVoicingIdx c → withIdx st l c k = st)
    by (by intros k ->).
  split; [| split].
  - rewrite <- Hst at 1.
    rewrite !(changeVoicing_withIdx _ st l c idx _ Hl Hfind). fold len.
    apply Hback.
    pose proof (Z.mod_pos_bound (activeVoicingIdx c + 1 + len) len ltac:(lia)).
    rewrite (Z.rem_mod_nonneg (activeVoicingIdx c + 1 + len)) by lia.
    rewrite Z.rem_mod_nonneg by lia.
    replace ((activeVoicingIdx c + 1 + len) `mod` len + -1 + len)
      with ((activeVoicingIdx c + 1 + len) `mod` len + (-1 + 1 * len)) by lia.
    rewrite Zplus_mod_idemp_l.
    replace (activeVoicingIdx c + 1 + len + (-1 + 1 * len))
      with (activeVoicingIdx c + 2 * len) by lia.
    rewrite Z.mod_add by lia. apply Z.mod_small. lia.
  - rewrite <- Hst at 1.
    rewrite !(changeVoicing_withIdx _ st l c idx _ Hl Hfind). fold len.
    apply Hback.
    pose proof (Z.mod_pos_bound (activeVoicingIdx c + -1 + len) len ltac:(lia)).
    rewrite (Z.rem_mod_nonneg (activeVoicingIdx c + -1 + len)) by lia.
    rewrite Z.rem_mod_nonneg by lia.
    replace ((activeVoicingIdx c + -1 + len) `mod` len + 1 + len)
      with ((activeVoicingIdx c + -1 + len) `mod` len + (1 + 1 * len)) by lia.
    rewrite Zplus_mod_idemp_l.
    replace (activeVoicingIdx c + -1 + len + (1 + 1 * len))
      with (activeVoicingIdx c + 2 * len) by lia.
    rewrite Z.mod_add by lia. apply Z.mod_small. lia.
  - subst len. rewrite <- Hst at 1.
    rewrite (changeVoicing_iter _ st l c idx _ Hl Hfind) by lia.
    apply Hback.
    destruct (length (voicings c)) as [| n]; [reflexivity |].
    replace (activeVoicingIdx c + Z.of_nat (S n))
      with (activeVoicingIdx c + 1 * Z.of_nat (S n)) by lia.
    rewrite Z.mod_add by lia. apply Z.mod_small. lia.
Qed.

Lemma X5_changeVoicing_witness :
  changeVoicing (-1) (changeVoicing 1 session1) = session1 ∧
  changeVoicing 1 (changeVoicing (-1) session1) = session1 ∧
  Nat.iter 4 (changeVoicing 1) session1 = session1.
Proof.
  edestruct (X5_changeVoicing_round_trip session1 1%nat) as (H1 & H2 & H3).
  - reflexivity.
  - vm_compute. reflexivity.
  - vm_compute. reflexivity.
  - by vm_compute.
  - split; [exact H1 |]. split; [exact H2 |]. exact H3.
Defined.

Lemma nextVoicingIdx_valid (delta : Z) (c : Chord) :
  validIdx c → -1 ≤ delta → validIdx (setIdx (nextVoicingIdx delta c) c).
Proof.
  intros [H0 Hlen] Hd. unfold validIdx, nextVoicingIdx.
  cbn [activeVoicingIdx voicings setIdx].
  set (len := Z.of_nat (length (voicings c))) in *.
  rewrite Z.rem_mod_nonneg by lia.
  apply Z.mod_pos_bound. lia.
Qed.

(** X6.  The handlers keep the active index of every chord object within
    its voicings: if that holds of a state, it holds after adding a chord,
    after stepping the voicing by any amount from -1 up, and after removing
    a chord. *)
Theorem X6_valid_index_invariant (st : AppState) :
  wellFormed st →
  (∀ chordTemplate now, wellFormed (addChord chordTemplate now st)) ∧
  (∀ delta, -1 ≤ delta → wellFormed (changeVoicing delta st)) ∧
  (∀ idx, wellFormed (removeChord idx st)).
Proof.
  unfold wellFormed. intros Hwf. split; [| split].
  - intros t now. unfold addChord.
    destruct (heap st !! t) as [tc |] eqn:Ht; [| exact Hwf].
    cbn [heap]. apply map_Forall_insert_2; [| exact Hwf].
    exact (Hwf _ _ Ht).
  - intros delta Hd. unfold changeVoicing.
    destruct (selectedChord st) as [sel |]; [| exact Hwf].
    destruct (heap st !! sel) as [selObj |]; [| exact Hwf].
    destruct (findById _ _ selObj) as [[idx l] |]; [| exact Hwf].
    destruct (heap st !! l) as [c |] eqn:Hl; [| exact Hwf].
    cbn [heap]. apply map_Forall_insert_2; [| exact Hwf].
    apply (nextVoicingIdx_valid delta c); [exact (Hwf _ _ Hl) | exact Hd].
  - intros idx. exact Hwf.
Qed.

Lemma session1_wellFormed : wellFormed session1.
Proof.
  unfold wellFormed. apply map_Forall_lookup. intros l c H.
  unfold session1, addChord, session0 in H. cbn [heap] in H.
  rewrite lookup_singleton_eq in H. cbn [heap] in H.
  apply lookup_insert_Some in H as [[_ <-] | [_ H]].
  - by vm_compute.
  - apply lookup_singleton_Some in H as [_ <-]. by vm_compute.
Qed.

Lemma X6_valid_index_witness :
  wellFormed (addChord 0%nat 1700000000001 session1) ∧
  wellFormed (changeVoicing (-1) session1) ∧
  wellFormed (removeChord 0 session1).
Proof.
  destruct (X6_valid_index_invariant session1 session1_wellFormed) as (Ha & Hc & Hr).
  split; [apply Ha |]. split; [apply Hc; lia | apply Hr].
Defined.

(** X7.  Removing a chord leaves the selection alone.  When the ids of
    the progression are pairwise distinct and the selected chord is the one
    removed, the selection still points at the removed chord afterwards and
    the voicing buttons do nothing. *)
Theorem X7_removed_selection_is_inert (delta : Z) (st : AppState)
        (l : loc) (c : Chord) (idx : nat) :
  selectedChord st = Some l →
  heap st !! l = Some c →
  progression st !! idx = Some l →
  NoDup (progressionIds st) →
  selectedChord (removeChord idx st) = Some l ∧
  (l ∉ progression (removeChord idx st)) ∧
  changeVoicing delta (removeChord idx st) = removeChord idx st.
Proof.
  intros Hsel Hl Hidx Hnd.
  assert (Hother : ∀ j x, progression st !! j = Some x → j ≠ idx →
                          chord_id <$> heap st !! x ≠ Some (chord_id c)).
  { intros j x Hj Hne Hid. apply Hne.
    apply (NoDup_lookup _ j idx (Some (chord_id c)) Hnd);
      unfold progressionIds; rewrite list_lookup_fmap.
    - rewrite Hj. cbn. by rewrite Hid.
    - rewrite Hidx. cbn. by rewrite Hl. }
  assert (Hgone : ∀ j x, delete idx (progression st) !! j = Some x →
                         chord_id <$> heap st !! x ≠ Some (chord_id c)).
  { intros j x Hj. rewrite list_lookup_delete in Hj.
    destruct (decide (j < idx)%nat).
    - apply (Hother j x Hj). lia.
    - apply (Hother (S j) x Hj). lia. }
  split; [exact Hsel |]. split.
  - cbn [removeChord progression]. intros Hin.
    apply list_elem_of_lookup_1 in Hin as [j Hj].
    apply (Hgone j l Hj). by rewrite Hl.
  - unfold changeVoicing. cbn [removeChord selectedChord heap progression].
    rewrite Hsel, Hl.
    replace (findById (heap st) (delete idx (progression st)) c) with (@None (nat * nat));
      [reflexivity |].
    symmetry. apply list_find_None, Forall_forall. intros x Hin.
    apply list_elem_of_lookup_1 in Hin as [j Hj]. exact (Hgone j x Hj).
Qed.

Lemma X7_removed_selection_witness :
  selectedChord (removeChord 0 session1) = Some 1%nat ∧
  progression (removeChord 0 session1) = [] ∧
  changeVoicing 1 (removeChord 0 session1) = removeChord 0 session1.
Proof.
  edestruct (X7_removed_selection_is_inert 1 session1 1%nat) as (Hs & _ & Hc).
  - reflexivity.
  - vm_compute. reflexivity.
  - instantiate (1 := 0%nat). reflexivity.
  - vm_compute. repeat constructor. rewrite elem_of_nil. tauto.
  - split; [exact Hs |]. split; [reflexivity | exact Hc].
Defined.

(** X9.  Two chords added from the same template at the same time stamp
    get the same id.  If no chord of the progression had that id before,
    the second copy is the selection, but stepping the voicing writes to the
    first copy (the first of the progression with the id) and moves the
    selection to it; the second copy is left as it is.  The template has a
    valid active index, the step is below 2^52 in size and the time stamp
    is a count of milliseconds below 2^53. *)
Theorem X9_same_instant_ids_collide (chordTemplate : loc) (now delta : Z)
        (st : AppState) (t : Chord) :
  heap st !! chordTemplate = Some t →
  validIdx t →
  exactStep delta t →
  0 ≤ now < 2 ^ 53 →
  Forall (fun x => is_Some (heap st !! x)) (progression st) →
  Some (chord_id t +:+ "-" +:+ pretty now) ∉ progressionIds st →
  ∃ l1 l2 c,
    l1 ≠ l2 ∧
    progression (addChord chordTemplate now (addChord chordTemplate now st))
      = (progression st ++ [l1; l2])%list ∧
    selectedChord (addChord chordTemplate now (addChord chordTemplate now st)) = Some l2 ∧
    heap (addChord chordTemplate now (addChord chordTemplate now st)) !! l1 = Some c ∧
    heap (addChord chordTemplate now (addChord chordTemplate now st)) !! l2 = Some c ∧
    selectedChord
      (changeVoicing delta (addChord chordTemplate now (addChord chordTemplate now st)))
      = Some l1 ∧
    heap (changeVoicing delta (addChord chordTemplate now (addChord chordTemplate now st)))
      !! l1 = Some (setIdx (nextVoicingIdx delta c) c) ∧
    heap (changeVoicing delta (addChord chordTemplate now (addChord chordTemplate now st)))
      !! l2 = Some c.
Proof.
  intros Ht _ _ _ Hprog Hids.
  set (c := {| chord_id := chord_id t +:+ "-" +:+ pretty now;
               root := root t; quality := quality t; name := name t;
               roman := roman t; function := function t; notes := notes t;
               voicings := voicings t; activeVoicingIdx := activeVoicingIdx t;
               scaleDegree := scaleDegree t; isDiatonic := isDiatonic t;
               category := category t |}).
  set (l1 := fresh (dom (heap st))).
  set (h1 := <[l1 := c]> (heap st)).
  set (l2 := fresh (dom h1)).
  assert (Hl1 : heap st !! l1 = None) by (apply not_elem_of_dom, is_fresh).
  assert (Hl2 : h1 !! l2 = None) by (apply not_elem_of_dom, is_fresh).
  assert (Hne : l1 ≠ l2).
  { intros E. rewrite <- E in Hl2. unfold h1 in Hl2. by rewrite lookup_insert_eq in Hl2. }
  assert (Hl2' : heap st !! l2 = None)
    by (unfold h1 in Hl2; by rewrite lookup_insert_ne in Hl2).
  assert (Htne : chordTemplate ≠ l1) by congruence.
  assert (Hst1 : addChord chordTemplate now st
                 = {| heap := h1; progression := (progression st ++ [l1])%list;
                      selectedChord := Some l1 |}).
  { unfold addChord. by rewrite Ht. }
  assert (Hst2 : addChord chordTemplate now (addChord chordTemplate now st)
                 = {| heap := <[l2 := c]> h1;
                      progression := (progression st ++ [l1; l2])%list;
                      selectedChord := Some l2 |}).
  { rewrite Hst1. unfold addChord. cbn [heap progression].
    replace (h1 !! chordTemplate) with (Some t)
      by (unfold h1; by rewrite lookup_insert_ne). cbn zeta.
    fold l2. fold c. by rewrite <- app_assoc. }
  assert (H21 : <[l2 := c]> h1 !! l1 = Some c).
  { rewrite lookup_insert_ne by congruence. unfold h1. apply lookup_insert_eq. }
  assert (Hfind : findById (<[l2 := c]> h1) (progression st ++ [l1; l2]) c
                  = Some (length (progression st), l1)).
  { unfold findById. apply list_find_Some. split; [| split].
    - rewrite lookup_app_r by lia. by rewrite Nat.sub_diag.
    - by rewrite H21.
    - intros j y Hj Hlt. rewrite lookup_app_l in Hj by exact Hlt.
      rewrite Forall_forall in Hprog.
      destruct (Hprog y (list_elem_of_lookup_2 _ _ _ Hj)) as [cy Hy].
      assert (y ≠ l1 ∧ y ≠ l2) as [? ?] by (split; congruence).
      unfold h1. rewrite !lookup_insert_ne by congruence.
      intros Hid. apply Hids. unfold progressionIds.
      apply list_elem_of_fmap. exists y.
      split; [by rewrite Hid | exact (list_elem_of_lookup_2 _ _ _ Hj)]. }
  exists l1, l2, c. rewrite Hst2. cbn [progression selectedChord heap].
  split; [exact Hne |]. split; [reflexivity |]. split; [reflexivity |].
  split; [exact H21 |]. split; [apply lookup_insert_eq |].
  unfold changeVoicing. cbn [selectedChord heap progression].
  rewrite lookup_insert_eq, Hfind, H21. cbn [selectedChord heap].
  split; [reflexivity |].
  split; [apply lookup_insert_eq |].
  rewrite lookup_insert_ne by exact Hne. apply lookup_insert_eq.
Qed.

Lemma X9_same_instant_witness :
  ∃ st2,
    st2 = addChord 0%nat 5 (addChord 0%nat 5 session0) ∧
    progression st2 = [1%nat; 2%nat] ∧ selectedChord st2 = Some 2%nat ∧
    selectedChord (changeVoicing 1 st2) = Some 1%nat ∧
    activeVoicingIdx <$> heap (changeVoicing 1 st2) !! 1%nat = Some 1 ∧
    activeVoicingIdx <$> heap (changeVoicing 1 st2) !! 2%nat = Some 0.
Proof.
  destruct (X9_same_instant_ids_collide 0%nat 5 1 session0 tonicTemplate)
    as (l1 & l2 & c & _ & Hp & Hs & H1 & H2 & Hs' & H1' & H2').
  - reflexivity.
  - by vm_compute.
  - by vm_compute.
  - by vm_compute.
  - constructor.
  - cbn. apply not_elem_of_nil.
  - eexists. split; [reflexivity |].
    assert (l1 = 1%nat ∧ l2 = 2%nat) as [-> ->]
      by (vm_compute in Hp; split; congruence).
    split; [exact Hp |]. split; [exact Hs |]. split; [exact Hs' |].
    rewrite H1', H2'. vm_compute in H1. injection H1 as <-.
    split; reflexivity.
Defined.

Lemma chordFacts_all (style : string) :
  style ∈ ["Pop"; "Jazz"; "Blues"; ""] → catalogueCheck (chordFactsCheck style) style = true.
Proof.
  intros H.
  repeat (apply elem_of_cons in H as [-> | H]; [by vm_compute |]).
  by apply elem_of_nil in H.
Qed.

Lemma catalogueFacts_all (style : string) :
  style ∈ ["Pop"; "Jazz"; "Blues"; ""] →
  catalogueCheckAll (catalogueFactsCheck style) style = true.
Proof.
  intros H.
  repeat (apply elem_of_cons in H as [-> | H]; [by vm_compute |]).
  by apply elem_of_nil in H.
Qed.

(** ** Facts of every catalogue *)

Lemma styleOf_name (style name : string) :
  name ∈ ["Pop"; "Jazz"; "Blues"] → (styleOf style = name ↔ style = name).
Proof.
  intros H. unfold styleOf.
  destruct (String.eqb_spec style "Pop") as [-> | HP];
    [| destruct (String.eqb_spec style "Jazz") as [-> | HJ];
       [| destruct (String.eqb_spec style "Blues") as [-> | HB]]];
    try tauto.
  repeat (apply elem_of_cons in H as [-> | H]; [split; congruence |]).
  by apply elem_of_nil in H.
Qed.

Lemma chordFacts_hold (r scaleType style : string) (cs : list Chord) (c : Chord) :
  r ∈ ALL_NOTES →
  generateKeyChords r scaleType style = Ok cs →
  c ∈ cs →
  chordFacts (styleOf style) r scaleType c.
Proof.
  intros Hr Hcs Hc. rewrite generateKeyChords_style in Hcs.
  pose proof (catalogueCheck_sound _ _ (chordFacts_all _ (styleOf_cases style))
                r scaleType cs c Hr Hcs Hc) as Hchk.
  by apply bool_decide_eq_true in Hchk.
Qed.

Lemma catalogueCheckAll_sound (P : string → string → list Chord → bool) (style : string) :
  catalogueCheckAll P style = true →
  ∀ r scaleType cs,
    r ∈ ALL_NOTES →
    generateKeyChords r scaleType style = Ok cs →
    P r scaleType cs = true.
Proof.
  unfold catalogueCheckAll. intros Hall r scaleType cs Hr Hcs.
  rewrite forallb_forall in Hall.
  specialize (Hall r (proj1 (list_elem_of_In _ _) Hr)).
  rewrite forallb_forall in Hall.
  assert (Hst : scaleType ∈ scaleNames).
  { pose proof Hcs as Hinv.
    apply generateKeyChords_inv in Hinv as (pattern & _ & _ & Hp & _).
    unfold scaleNames. apply list_elem_of_fmap. exists (scaleType, pattern).
    split; [reflexivity |]. by apply elem_of_map_to_list. }
  specialize (Hall scaleType (proj1 (list_elem_of_In _ _) Hst)).
  by rewrite Hcs in Hall.
Qed.

Lemma catalogueFacts_hold (r scaleType style : string) (cs : list Chord) :
  r ∈ ALL_NOTES →
  generateKeyChords r scaleType style = Ok cs →
  catalogueFacts (styleOf style) r scaleType cs.
Proof.
  intros Hr Hcs. rewrite generateKeyChords_style in Hcs.
  pose proof (catalogueCheckAll_sound _ _ (catalogueFacts_all _ (styleOf_cases style))
                r scaleType cs Hr Hcs) as Hchk.
  by apply bool_decide_eq_true in Hchk.
Qed.

Lemma note_C_in_ALL_NOTES : "C" ∈ ALL_NOTES.
Proof. apply list_elem_of_here. Qed.

(** X10.  Every voicing of every chord of a catalogue can be fingered and
    shown: it has six strings, every fret lies between -1 (muted) and 15,
    at least one string is played, and the window start is a finite fret,
    from 1 to 11 for a diatonic chord or variation and from 0 to 11 for a
    wildcard; the chord starts on its first voicing. *)
Theorem X10_voicings_playable (r scaleType style : string) (cs : list Chord)
        (c : Chord) (v : Voicing) :
  r ∈ ALL_NOTES →
  generateKeyChords r scaleType style = Ok cs →
  c ∈ cs →
  v ∈ voicings c →
  activeVoicingIdx c = 0 ∧
  length (frets v) = 6%nat ∧
  Forall (fun f => -1 ≤ f ≤ 15) (frets v) ∧
  Exists (fun f => f ≠ -1) (frets v) ∧
  ∃ b, baseFret v = Fin b ∧ (if decide (category c = Wildcard) then 0 else 1) ≤ b ≤ 11.
Proof.
  intros Hr Hcs Hc Hv.
  destruct (chordFacts_hold r scaleType style cs c Hr Hcs Hc) as ((_ & Hidx & Hplay) & _).
  rewrite Forall_forall in Hplay.
  destruct (Hplay v Hv) as (Hlen & Hrange & Hsome & Hbase).
  do 4 (split; [assumption |]).
  destruct (baseFret v) as [b |]; [| contradiction]. by exists b.
Qed.

Lemma X10_voicings_witness :
  ∃ cs c v,
    generateKeyChords "C" "Major" "Pop" = Ok cs ∧ cs !! 0%nat = Some c ∧
    voicings c !! 0%nat = Some v ∧
    length (frets v) = 6%nat ∧ ∃ b, baseFret v = Fin b ∧ 1 ≤ b ≤ 11.
Proof.
  eexists _, _, _.
  split; [vm_compute; reflexivity |]. do 2 (split; [reflexivity |]).
  edestruct (X10_voicings_playable "C" "Major" "Pop") as (_ & Hl & _ & _ & Hb).
  - exact note_C_in_ALL_NOTES.
  - vm_compute. reflexivity.
  - apply list_elem_of_here.
  - apply list_elem_of_here.
  - split; [exact Hl | exact Hb].
Defined.

(** X11.  Whichever voicing of a catalogue chord is made the active one,
    the fretboard shows a board with one marker per string and hides none
    of them: every played string of every generated voicing falls inside
    the five-fret window that starts at [baseFret || 1], or is open. *)
Theorem X11_fretboard_hides_nothing (r scaleType style : string) (cs : list Chord)
        (c : Chord) (k : nat) (v : Voicing) :
  r ∈ ALL_NOTES →
  generateKeyChords r scaleType style = Ok cs →
  c ∈ cs →
  voicings c !! k = Some v →
  ∃ markers,
    Fretboard (Some (setIdx (Z.of_nat k) c)) = Board (startFretOf v) markers ∧
    length markers = 6%nat ∧
    MarkHidden ∉ markers.
Proof.
  intros Hr Hcs Hc Hk.
  destruct (chordFacts_hold r scaleType style cs c Hr Hcs Hc)
    as ((_ & _ & Hplay) & Hdrawn & _).
  pose proof (list_elem_of_lookup_2 _ _ _ Hk) as Hv.
  unfold allDrawn in Hdrawn. rewrite Forall_forall in Hdrawn, Hplay.
  specialize (Hdrawn v Hv). destruct (Hplay v Hv) as (Hlen & _).
  exists (imap (renderNote c v) (frets v)).
  split.
  - unfold Fretboard, activeVoicing. cbn [activeVoicingIdx voicings setIdx].
    destruct (Z.ltb_spec (Z.of_nat k) 0) as [Hneg | _]; [lia |].
    by rewrite Nat2Z.id, Hk.
  - split; [by rewrite length_imap |].
    rewrite Forall_forall in Hdrawn. intros Hin. by apply (Hdrawn _ Hin).
Qed.

Lemma X11_fretboard_witness :
  ∃ cs c v,
    generateKeyChords "C" "Major" "Pop" = Ok cs ∧ cs !! 0%nat = Some c ∧
    voicings c !! 2%nat = Some v ∧
    ∃ markers,
      Fretboard (Some (setIdx 2 c)) = Board (startFretOf v) markers ∧
      length markers = 6%nat ∧ MarkHidden ∉ markers.
Proof.
  eexists _, _, _.
  split; [vm_compute; reflexivity |]. do 2 (split; [reflexivity |]).
  eapply (X11_fretboard_hides_nothing "C" "Major" "Pop" _ _ 2%nat).
  - exact note_C_in_ALL_NOTES.
  - vm_compute. reflexivity.
  - apply list_elem_of_here.
  - reflexivity.
Defined.

(** X12.  The two shape voicings of a diatonic chord or variation are
    labelled by where the root falls: the first is "Open / Bottom" when the
    root is E and "Root on E (Fret k)" otherwise, the second "Open A-Style"
    when the root is A and "Root on A (Fret k)" otherwise, k being the fret
    of the root on that string; no voicing of any chord is ever labelled
    with fret 12. *)
Theorem X12_shape_labels (r scaleType style : string) (cs : list Chord) (c : Chord) :
  r ∈ ALL_NOTES →
  generateKeyChords r scaleType style = Ok cs →
  c ∈ cs →
  (category c ≠ Wildcard →
   vname <$> voicings c !! 0%nat
     = Some (if decide (root c = "E") then "Open / Bottom"
             else "Root on E (Fret "
                    +:+ pretty (fretOn (indexOf ALL_NOTES "E") (root c)) +:+ ")") ∧
   vname <$> voicings c !! 1%nat
     = Some (if decide (root c = "A") then "Open A-Style"
             else "Root on A (Fret "
                    +:+ pretty (fretOn (indexOf ALL_NOTES "A") (root c)) +:+ ")")) ∧
  ∀ v, v ∈ voicings c →
       vname v ≠ "Root on E (Fret 12)" ∧ vname v ≠ "Root on A (Fret 12)".
Proof.
  intros Hr Hcs Hc.
  destruct (chordFacts_hold r scaleType style cs c Hr Hcs Hc)
    as (_ & _ & (Hnever & Hlabels) & _).
  split; [exact Hlabels |].
  intros v Hv. rewrite Forall_forall in Hnever. specialize (Hnever v Hv).
  rewrite !elem_of_cons, elem_of_nil in Hnever. tauto.
Qed.

Lemma X12_shape_labels_witness :
  ∃ cs c,
    generateKeyChords "C" "Major" "Pop" = Ok cs ∧ cs !! 5%nat = Some c ∧ root c = "D" ∧
    vname <$> voicings c !! 0%nat = Some "Root on E (Fret 10)" ∧
    vname <$> voicings c !! 1%nat = Some "Root on A (Fret 5)".
Proof.
  eexists _, _.
  split; [vm_compute; reflexivity |]. do 2 (split; [reflexivity |]).
  edestruct (X12_shape_labels "C" "Major" "Pop") as [Hl _].
  - exact note_C_in_ALL_NOTES.
  - vm_compute. reflexivity.
  - apply (list_elem_of_lookup_2 _ 5%nat). reflexivity.
  - apply Hl. discriminate.
Defined.

Lemma playedBass_Some (c : Chord) (k : nat) (n : string) :
  playedBass c k = Some n →
  ∃ first rest, playSound (setIdx (Z.of_nat k) c) = Some (first :: rest) ∧ note first = n.
Proof.
  unfold playedBass. intros H.
  destruct (playSound _) as [[| first rest] |]; try discriminate.
  injection H as <-. by eexists _, _.
Qed.

(** X13.  The lowest note strummed is the one the voicing is named after.
    With voicing [k] of a catalogue chord active, [playSound] starts on the
    chord's root for the shape voicings (the first two, or the only one of a
    wildcard) and, for an inversion, on the note its label puts after the
    slash, which is the chord's stored third or fifth. *)
Theorem X13_bass_note_as_labelled (r scaleType style : string) (cs : list Chord)
        (c : Chord) (k : nat) (v : Voicing) :
  r ∈ ALL_NOTES →
  generateKeyChords r scaleType style = Ok cs →
  c ∈ cs →
  voicings c !! k = Some v →
  ∃ first rest,
    playSound (setIdx (Z.of_nat k) c) = Some (first :: rest) ∧
    ((k < 2)%nat → note first = root c) ∧
    ((2 ≤ k)%nat →
     note first ∈ [at_index (notes c) 1; at_index (notes c) 2] ∧
     vname v ∈ ["/" +:+ note first +:+ " (Bass on E)";
                "/" +:+ note first +:+ " (Bass on A)"]).
Proof.
  intros Hr Hcs Hc Hk.
  destruct (chordFacts_hold r scaleType style cs c Hr Hcs Hc)
    as (_ & _ & _ & (H0 & H1 & Hslash) & _ & _ & _ & _ & Hcount).
  destruct k as [| [| k]].
  - apply playedBass_Some in H0 as (first & rest & Hp & Hn).
    exists first, rest. split; [exact Hp |]. split; [done | lia].
  - assert (Hcat : category c ≠ Wildcard).
    { intros Hw. apply lookup_lt_Some in Hk. rewrite Hcount in Hk.
      unfold expectedVoicings in Hk. rewrite decide_True in Hk by exact Hw. lia. }
    apply H1, playedBass_Some in Hcat as (first & rest & Hp & Hn).
    exists first, rest. split; [exact Hp |]. split; [done | lia].
  - rewrite Forall_forall in Hslash.
    assert (Hin : (S (S k), v) ∈ drop 2 (imap pair (voicings c))).
    { apply (list_elem_of_lookup_2 _ k). rewrite lookup_drop, list_lookup_imap.
      change (2 + k)%nat with (S (S k)). by rewrite Hk. }
    specialize (Hslash _ Hin). cbn [fst snd] in Hslash.
    unfold slashLabels in Hslash. cbv zeta in Hslash.
    rewrite !elem_of_cons, elem_of_nil in Hslash.
    destruct Hslash as [[= Hv Hb] | [[= Hv Hb] | [[= Hv Hb] | []]]];
      apply playedBass_Some in Hb as (first & rest & Hp & Hn);
      exists first, rest; (split; [exact Hp |]); (split; [lia |]); intros _;
      rewrite Hn, Hv, !elem_of_cons; auto.
Qed.

Lemma X13_bass_note_witness :
  ∃ cs c v,
    generateKeyChords "C" "Major" "Pop" = Ok cs ∧ cs !! 0%nat = Some c ∧
    voicings c !! 2%nat = Some v ∧ vname v = "/E (Bass on A)" ∧
    ∃ first rest,
      playSound (setIdx (Z.of_nat 2) c) = Some (first :: rest) ∧
      ((2 < 2)%nat → note first = root c) ∧
      ((2 ≤ 2)%nat →
       note first ∈ [at_index (notes c) 1; at_index (notes c) 2] ∧
       vname v ∈ ["/" +:+ note first +:+ " (Bass on E)";
                  "/" +:+ note first +:+ " (Bass on A)"]).
Proof.
  eexists _, _, _.
  split; [vm_compute; reflexivity |]. do 3 (split; [reflexivity |]).
  eapply (X13_bass_note_as_labelled "C" "Major" "Pop" _ _ 2%nat).
  - exact note_C_in_ALL_NOTES.
  - vm_compute. reflexivity.
  - apply list_elem_of_here.
  - reflexivity.
Defined.

(** X14.  The harmonic function of a Core chord is fixed by its degree
    alone, in every scale and style: Home on degrees 1, 3 and 6, Adventure
    on 2 and 4, Tension on 5 and 7 (the Blues and Mixolydian branch changes
    nothing).  A variation is Spice, except the 7sus4 one, which is
    Tension; the chords with function Stranger are exactly the wildcards. *)
Theorem X14_function_by_degree (r scaleType style : string) (cs : list Chord) (c : Chord) :
  r ∈ ALL_NOTES →
  generateKeyChords r scaleType style = Ok cs →
  c ∈ cs →
  (category c = Team →
   function c = if decide (scaleDegree c ∈ [1; 3; 6]) then Home
                else if decide (scaleDegree c ∈ [2; 4]) then Adventure
                else Tension) ∧
  (category c = Variation →
   function c = if decide (quality c = "7sus4") then Tension else Spice) ∧
  (category c = Wildcard ↔ function c = Stranger).
Proof.
  intros Hr Hcs Hc.
  by destruct (chordFacts_hold r scaleType style cs c Hr Hcs Hc)
    as (_ & _ & _ & _ & Hf & _).
Qed.

Lemma X14_function_witness :
  ∃ cs c,
    generateKeyChords "G" "Mixolydian" "Blues" = Ok cs ∧ cs !! 0%nat = Some c ∧
    category c = Team ∧ scaleDegree c = 1 ∧ function c = Home.
Proof.
  eexists _, _.
  split; [vm_compute; reflexivity |]. do 3 (split; [reflexivity |]).
  edestruct (X14_function_by_degree "G" "Mixolydian" "Blues") as (Hf & _ & _).
  - unfold ALL_NOTES. rewrite !elem_of_cons. auto 10.
  - vm_compute. reflexivity.
  - apply list_elem_of_here.
  - rewrite Hf; reflexivity.
Defined.

(** X15.  Outside the Blues override (any other style, or a degree other
    than 1, 4 and 5), the stored tones of a diatonic chord or variation are
    the scale tones on its degree, two steps and four steps above it,
    wrapping within the seven-tone scale; the interval map then lights
    exactly those three cells of the scale and marks the cell of the degree
    as the root. *)
Theorem X15_diatonic_tones (r scaleType style : string) (scale : list string)
        (cs : list Chord) (c : Chord) :
  r ∈ ALL_NOTES →
  buildScale r scaleType = Ok scale →
  generateKeyChords r scaleType style = Ok cs →
  c ∈ cs →
  category c ≠ Wildcard →
  style ≠ "Blues" ∨ scaleDegree c ∉ bluesDegrees →
  notes c = [ at_index scale (scaleDegree c - 1);
              at_index scale (Z.rem (scaleDegree c - 1 + 2) 7);
              at_index scale (Z.rem (scaleDegree c - 1 + 4) 7) ] ∧
  isChordTone <$> TheorySpectrum scale (Some c) = tonesLit (scaleDegree c - 1) ∧
  isRootCell <$> TheorySpectrum scale (Some c) = rootLit (scaleDegree c - 1).
Proof.
  intros Hr Hs Hcs Hc Hcat Hstyle.
  destruct (chordFacts_hold r scaleType style cs c Hr Hcs Hc)
    as (_ & _ & _ & _ & _ & Hn & _).
  unfold scaleOf in Hn. rewrite Hs in Hn. apply Hn; [exact Hcat |].
  destruct Hstyle as [Hb | Hd]; [left | by right].
  intros E. apply Hb. apply (styleOf_name style "Blues"); [| exact E].
  rewrite !elem_of_cons. auto.
Qed.

Lemma X15_diatonic_witness :
  ∃ cs c,
    generateKeyChords "C" "Major" "Jazz" = Ok cs ∧ cs !! 1%nat = Some c ∧
    notes c = ["D"; "F"; "A"] ∧
    isChordTone <$> TheorySpectrum ["C"; "D"; "E"; "F"; "G"; "A"; "B"] (Some c)
      = [false; true; false; true; false; true; false].
Proof.
  eexists _, _.
  split; [vm_compute; reflexivity |]. split; [reflexivity |].
  edestruct (X15_diatonic_tones "C" "Major" "Jazz") as (Hn & Ht & _).
  - exact note_C_in_ALL_NOTES.
  - reflexivity.
  - vm_compute. reflexivity.
  - apply (list_elem_of_lookup_2 _ 1%nat). reflexivity.
  - discriminate.
  - left. discriminate.
  - split; [exact Hn | exact Ht].
Defined.

(** X16.  Only the Jazz and Blues styles produce seventh chords: in any
    other style every Core chord has one of the three triad tags, the empty
    tag (major), m or dim. *)
Theorem X16_triads_outside_jazz_and_blues (r scaleType style : string)
        (cs : list Chord) (c : Chord) :
  r ∈ ALL_NOTES →
  generateKeyChords r scaleType style = Ok cs →
  c ∈ cs →
  category c = Team →
  style ≠ "Jazz" →
  style ≠ "Blues" →
  quality c ∈ [""; "m"; "dim"].
Proof.
  intros Hr Hcs Hc Hcat HJ HB.
  destruct (chordFacts_hold r scaleType style cs c Hr Hcs Hc)
    as (_ & _ & _ & _ & _ & _ & Hq & _).
  apply Hq; [exact Hcat | |]; intros E.
  - apply HJ. apply (styleOf_name style "Jazz"); [| exact E]. rewrite !elem_of_cons. auto.
  - apply HB. apply (styleOf_name style "Blues"); [| exact E]. rewrite !elem_of_cons. auto.
Qed.

Lemma X16_triads_witness :
  ∃ cs c,
    generateKeyChords "C" "Harmonic Minor" "Pop" = Ok cs ∧ cs !! 0%nat = Some c ∧
    category c = Team ∧ quality c ∈ [""; "m"; "dim"].
Proof.
  eexists _, _.
  split; [vm_compute; reflexivity |]. do 2 (split; [reflexivity |]).
  eapply (X16_triads_outside_jazz_and_blues "C" "Harmonic Minor" "Pop").
  - exact note_C_in_ALL_NOTES.
  - vm_compute. reflexivity.
  - apply list_elem_of_here.
  - reflexivity.
  - discriminate.
  - discriminate.
Defined.

(** X17.  The Roman numeral of a Core chord is the numeral of its degree,
    in upper case exactly when the stored third is a major third, followed
    by the mark of the quality: nothing for a triad, 7 for 7, m7 and mMaj7,
    Maj7 for maj7, and the doubled marks 7ø for m7b5 and 7°7 for dim7. *)
Theorem X17_roman_numeral (r scaleType style : string) (cs : list Chord) (c : Chord) :
  r ∈ ALL_NOTES →
  generateKeyChords r scaleType style = Ok cs →
  c ∈ cs →
  category c = Team →
  roman c
  = (if decide (noteInterval c 1 = 4)
     then toUpperCase (at_index ROMAN_NUMERALS (scaleDegree c - 1))
     else at_index ROMAN_NUMERALS (scaleDegree c - 1))
    +:+ (if decide (quality c = "maj7") then "Maj7"
         else if decide (quality c = "m7b5") then "7ø"
         else if decide (quality c = "dim7") then "7°7"
         else if decide (quality c ∈ ["7"; "m7"; "mMaj7"]) then "7"
         else "").
Proof.
  intros Hr Hcs Hc Hcat.
  destruct (chordFacts_hold r scaleType style cs c Hr Hcs Hc)
    as (_ & _ & _ & _ & _ & _ & _ & Hrn & _).
  exact (Hrn Hcat).
Qed.

Lemma X17_roman_witness :
  ∃ cs c,
    generateKeyChords "C" "Major" "Jazz" = Ok cs ∧ cs !! 9%nat = Some c ∧
    category c = Team ∧ quality c = "m7b5" ∧ roman c = "vii7ø".
Proof.
  eexists _, _.
  split; [vm_compute; reflexivity |]. do 3 (split; [reflexivity |]).
  erewrite (X17_roman_numeral "C" "Major" "Jazz").
  - reflexivity.
  - exact note_C_in_ALL_NOTES.
  - vm_compute. reflexivity.
  - apply (list_elem_of_lookup_2 _ 9%nat). reflexivity.
  - reflexivity.
Defined.

(** X18.  How many voicings a catalogue chord has: a wildcard one; a chord
    tagged as a major triad five (two shapes and three inversions), or four
    when its stored third is E or A, whose first inversion on that string
    would need a negative fret; a minor triad four, or three when its third
    is A; every other quality the two shapes only. *)
Theorem X18_voicing_count (r scaleType style : string) (cs : list Chord) (c : Chord) :
  r ∈ ALL_NOTES →
  generateKeyChords r scaleType style = Ok cs →
  c ∈ cs →
  length (voicings c)
  = if decide (category c = Wildcard) then 1%nat
    else if decide (quality c = "")
         then (if decide (at_index (notes c) 1 ∈ ["E"; "A"]) then 4%nat else 5%nat)
    else if decide (quality c = "m")
         then (if decide (at_index (notes c) 1 = "A") then 3%nat else 4%nat)
    else 2%nat.
Proof.
  intros Hr Hcs Hc.
  by destruct (chordFacts_hold r scaleType style cs c Hr Hcs Hc)
    as (_ & _ & _ & _ & _ & _ & _ & _ & Hcount).
Qed.

Lemma X18_voicing_count_witness :
  ∃ cs c,
    generateKeyChords "C" "Major" "Pop" = Ok cs ∧ cs !! 0%nat = Some c ∧
    name c = "C" ∧ length (voicings c) = 4%nat.
Proof.
  eexists _, _.
  split; [vm_compute; reflexivity |]. do 2 (split; [reflexivity |]).
  erewrite (X18_voicing_count "C" "Major" "Pop").
  - reflexivity.
  - exact note_C_in_ALL_NOTES.
  - vm_compute. reflexivity.
  - apply list_elem_of_here.
Defined.

(** X19.  The ids of the chords of one catalogue are pairwise distinct, so
    they tell the chords of the palette apart. *)
Theorem X19_catalogue_ids_distinct (r scaleType style : string) (cs : list Chord) :
  r ∈ ALL_NOTES →
  generateKeyChords r scaleType style = Ok cs →
  NoDup (chord_id <$> cs).
Proof.
  intros Hr Hcs.
  by destruct (catalogueFacts_hold r scaleType style cs Hr Hcs) as (Hids & _).
Qed.

Lemma X19_catalogue_ids_witness :
  ∃ cs, generateKeyChords "C" "Major" "Pop" = Ok cs ∧ length cs = 23%nat ∧
        NoDup (chord_id <$> cs).
Proof.
  eexists. split; [vm_compute; reflexivity |]. split; [reflexivity |].
  apply (X19_catalogue_ids_distinct "C" "Major" "Pop").
  - exact note_C_in_ALL_NOTES.
  - vm_compute. reflexivity.
Defined.

(** X20.  The Core chords of a catalogue are seven, one on each tone of the
    scale and in scale order: their roots read off the scale and their
    degrees run from 1 to 7. *)
Theorem X20_core_chords_follow_scale (r scaleType style : string)
        (scale : list string) (cs : list Chord) :
  r ∈ ALL_NOTES →
  buildScale r scaleType = Ok scale →
  generateKeyChords r scaleType style = Ok cs →
  root <$> filter (fun c => category c = Team) cs = scale ∧
  scaleDegree <$> filter (fun c => category c = Team) cs = [1; 2; 3; 4; 5; 6; 7].
Proof.
  intros Hr Hs Hcs.
  destruct (catalogueFacts_hold r scaleType style cs Hr Hcs) as (_ & Hroots & Hdeg & _).
  unfold scaleOf in Hroots. rewrite Hs in Hroots. by split.
Qed.

Lemma X20_core_chords_witness :
  ∃ cs, generateKeyChords "D" "Dorian" "Jazz" = Ok cs ∧
        root <$> filter (fun c => category c = Team) cs
          = ["D"; "E"; "F"; "G"; "A"; "B"; "C"] ∧
        scaleDegree <$> filter (fun c => category c = Team) cs = [1; 2; 3; 4; 5; 6; 7].
Proof.
  eexists. split; [vm_compute; reflexivity |].
  apply (X20_core_chords_follow_scale "D" "Dorian" "Jazz").
  - unfold ALL_NOTES. rewrite !elem_of_cons. auto 10.
  - reflexivity.
  - vm_compute. reflexivity.
Defined.

Lemma variationsOf_style (style quality : string) :
  variationsOf (styleOf style) quality = variationsOf style quality.
Proof.
  unfold variationsOf.
  assert (HP : styleOf style = "Pop" ↔ style = "Pop").
  { apply styleOf_name. apply list_elem_of_here. }
  destruct (decide (styleOf style = "Pop")) as [E | E], (decide (style = "Pop")) as [E' | E'];
    tauto.
Qed.

(** X21.  Which variations exist, and where.  The diatonic part of a
    catalogue is its Core chords in degree order, each followed directly by
    its variations on the same root and degree: sus4, sus2, add9 (Pop only)
    and 6 after a chord tagged as a major triad; sus4, sus2, add9 (Pop
    only) and 7sus4 after a chord tagged 7; none after any other chord. *)
Theorem X21_variations_follow_core (r scaleType style : string) (cs : list Chord) :
  r ∈ ALL_NOTES →
  generateKeyChords r scaleType style = Ok cs →
  outline <$> filter (fun c => category c ≠ Wildcard) cs
  = filter (fun c => category c = Team) cs ≫= familyOf style.
Proof.
  intros Hr Hcs.
  destruct (catalogueFacts_hold r scaleType style cs Hr Hcs) as (_ & _ & _ & Hlay).
  rewrite Hlay. apply list_bind_ext; [| done].
  intros p. unfold familyOf. by rewrite variationsOf_style.
Qed.

Lemma X21_variations_witness :
  ∃ cs, generateKeyChords "C" "Major" "Blues" = Ok cs ∧
        (outline <$> filter (fun c => category c ≠ Wildcard) cs) !! 3%nat
          = Some ("C", "7sus4", 1, Variation).
Proof.
  eexists. split; [vm_compute; reflexivity |].
  rewrite (X21_variations_follow_core "C" "Major" "Blues").
  - reflexivity.
  - exact note_C_in_ALL_NOTES.
  - vm_compute. reflexivity.
Defined.

(** X22.  On the timeline, the step into a catalogue chord [curr] is
    marked Surprise exactly when [curr] is a wildcard, whatever precedes
    it; the step into a variation other than 7sus4 is always Flow; and the
    step into a Core chord is never Surprise. *)
Theorem X22_surprise_iff_wildcard (r scaleType style : string) (cs : list Chord)
        (prev curr : Chord) :
  r ∈ ALL_NOTES →
  generateKeyChords r scaleType style = Ok cs →
  curr ∈ cs →
  (label (getTransitionInfo prev curr) = "Surprise" ↔ category curr = Wildcard) ∧
  (type (getTransitionInfo prev curr) = adventure ↔ category curr = Wildcard) ∧
  (category curr = Variation → quality curr ≠ "7sus4" →
   getTransitionInfo prev curr = {| type := neutral; label := "Flow" |}).
Proof.
  intros Hr Hcs Hc.
  destruct (chordFacts_hold r scaleType style cs curr Hr Hcs Hc)
    as (_ & _ & _ & _ & (_ & Hvar & Hwild) & _).
  unfold getTransitionInfo.
  destruct (category curr) eqn:Ecat.
  - assert (Hns : function curr ≠ Stranger) by (intros E; apply Hwild in E; discriminate).
    destruct (function prev), (function curr); try congruence;
      vm_compute; repeat split; congruence.
  - assert (Hns : function curr ≠ Stranger) by (intros E; apply Hwild in E; discriminate).
    rewrite (Hvar eq_refl).
    destruct (decide (quality curr = "7sus4")) as [Eq | Eq];
      destruct (function prev); cbv -[quality];
      repeat split; congruence.
  - assert (Hs : function curr = Stranger) by (by apply Hwild).
    rewrite Hs.
    destruct (function prev); vm_compute; repeat split; congruence.
Qed.

Lemma X22_surprise_witness :
  ∃ cs prev curr,
    generateKeyChords "C" "Major" "Pop" = Ok cs ∧
    cs !! 12%nat = Some prev ∧ cs !! 19%nat = Some curr ∧
    name prev = "G" ∧ name curr = "A#" ∧
    label (getTransitionInfo prev curr) = "Surprise".
Proof.
  eexists _, _, _.
  split; [vm_compute; reflexivity |]. do 4 (split; [reflexivity |]).
  eapply (X22_surprise_iff_wildcard "C" "Major" "Pop").
  - exact note_C_in_ALL_NOTES.
  - vm_compute. reflexivity.
  - apply (list_elem_of_lookup_2 _ 19%nat). reflexivity.
  - reflexivity.
Defined.
